(** * Accessibility registry and event bridge: model and verified properties

    A shallow embedding of the accessibility controller
    (accessibilitycontroller.cpp / .h), the platform wrapper
    (accessibleiteminterface.cpp) and the speech repeater
    (accessibilityrepeater.cpp).

    Conventions of the embedding:
    - A C++ pointer is an [option]: [None] is [nullptr].
    - An [IAccessible*] is an [IAccessiblePtr]: either the controller itself
      ([This]) or an application item identified by its address ([Obj n]).
    - A virtual call through an [IAccessible*] is resolved by [deref]: calls on
      [This] run the controller's own overrides, calls on [Obj n] read the
      answers of the application item from the environment.
    - Every call that leaves the controller (event channel, platform
      accessibility service, text-to-speech engine, object disposal) is
      appended, in program order, to the [effects] log of the state. *)

From Stdlib Require Import ZArith String List Bool Lia.
From stdpp Require Import base option list gmap strings.

Local Open Scope Z_scope.

(** ** Pointers *)

Inductive IAccessiblePtr : Type :=
| This
| Obj (n : nat).

#[global] Instance IAccessiblePtr_eq_dec : EqDecision IAccessiblePtr.
Proof. solve_decision. Defined.

#[global] Instance IAccessiblePtr_countable : Countable IAccessiblePtr.
Proof.
  apply (inj_countable'
           (λ r, match r with This => O | Obj n => S n end)
           (λ k, match k with O => This | S n => Obj n end)).
  by intros [].
Defined.

(** Addresses of [AccessibleObject] wrappers and of platform interfaces. *)
Definition AccessibleObjectPtr : Type := nat.
Definition QAccessibleInterfacePtr : Type := nat.

Definition nonnull {A : Type} (p : option A) : bool :=
  match p with Some _ => true | None => false end.

(** ** Strings: the part of QString / QStringList the code uses *)

Definition isEmpty (s : string) : bool :=
  match s with EmptyString => true | String _ _ => false end.

(** [QStringList::join]. *)
Definition join (sep : string) (parts : list string) : string :=
  String.concat sep parts.

(** A [QVariant] is represented by its [toString()] image; [None] is the
    invalid variant a default-constructed [QVariant] is. *)
Definition QVariant : Type := option string.

Definition toString (v : QVariant) : string :=
  match v with Some s => s | None => EmptyString end.

(** ** The IAccessible capability (iaccessible.h, as used by the sources) *)

Module IAccessible.

Inductive Role : Type :=
| NoRole | Application | Dialog | Panel | StaticText | EditableText
| Button | CheckBox | RadioButton | ComboBox | List | ListItem | MenuItem
| SpinBox | Range | Group | Information | ElementOnScore | SilentRole
| OtherRole (r : Z).

Inductive State : Type :=
| Enabled | Active | Focused | Selected | Checked.

Inductive TextBoundaryType : Type :=
| NoBoundary | CharBoundary | WordBoundary | SentenceBoundary
| ParagraphBoundary | LineBoundary.

#[global] Instance Role_eq_dec : EqDecision Role.
Proof. solve_decision. Defined.

#[global] Instance State_eq_dec : EqDecision State.
Proof. solve_decision. Defined.

(** [OtherRole] stands for any value of the enumeration that the [switch]
    statements of the sources do not list and send to their [default:]. *)

(** The answers of one object to the virtual methods of the interface.
    [int*] out-parameters are returned as components of the result. *)
Record t : Type := {
  accessibleParent : option IAccessiblePtr;
  accessibleChildCount : Z;
  accessibleChild : Z -> option IAccessiblePtr;
  accessibleRole : Role;
  accessibleName : string;
  accessibleDescription : string;
  accessibleState : State -> bool;
  accessibleIgnored : bool;
  accessibleValue : QVariant;
  accessibleMaximumValue : QVariant;
  accessibleMinimumValue : QVariant;
  accessibleValueStepSize : QVariant;
  accessibleSelection : Z -> Z * Z;
  accessibleSelectionCount : Z;
  accessibleCursorPosition : Z;
  accessibleText : Z -> Z -> string;
  accessibleTextBeforeOffset : Z -> TextBoundaryType -> string * Z * Z;
  accessibleTextAfterOffset : Z -> TextBoundaryType -> string * Z * Z;
  accessibleTextAtOffset : Z -> TextBoundaryType -> string * Z * Z;
  accessibleCharacterCount : Z;
  accessibleRowIndex : Z;
  accessibleScreenReaderInfo : string;
  accessibleExtraInfo : string
}.

End IAccessible.

(** ** Collaborators outside the controller *)

Inductive TtsState : Type := TtsReady | TtsSpeaking | TtsPaused | TtsError.

#[global] Instance TtsState_eq_dec : EqDecision TtsState.
Proof. solve_decision. Defined.

(** What the surrounding application and the platform answer while the
    controller runs.  [base_screenReaderInfo] and [base_extraInfo] are the
    defaults of the two score virtuals in [IAccessible], which the controller
    inherits without overriding; their bodies are declared in iaccessible.h. *)
Record Env : Type := {
  app : nat -> IAccessible.t;
  queryAccessibleInterface : AccessibleObjectPtr -> option QAccessibleInterfacePtr;
  qApp : bool;
  tts_state : TtsState;
  focusObjectText : option (string * string * string);
  base_screenReaderInfo : string;
  base_extraInfo : string
}.

(** ** Events and effects *)

Inductive QAccessibleEventType : Type :=
| ObjectCreated | ObjectDestroyed | NameChanged.

Record QAccessibleEvent : Type := {
  ev_object : option AccessibleObjectPtr;
  ev_type : QAccessibleEventType
}.

Inductive Effect : Type :=
| ChannelSend (ev : QAccessibleEvent)
| UpdateAccessibility (ev : QAccessibleEvent)
| InstallFactory
| InstallRootObjectHandler
| SetRootObject (o : option AccessibleObjectPtr)
| InstallEventFilter
| DeleteObject (o : option AccessibleObjectPtr)
| TtsStop
| TtsSay (text : string).

Definition isAccessibilityEvent (e : Effect) : bool :=
  match e with
  | ChannelSend _ | UpdateAccessibility _ => true
  | _ => false
  end.

(** ** Input events offered to the global key filter *)

Inductive QEventType : Type := KeyPress | KeyRelease | OtherEvent.

#[global] Instance QEventType_eq_dec : EqDecision QEventType.
Proof. solve_decision. Defined.

Record QKeyEvent : Type := {
  type : QEventType;
  key : Z;
  modifiers : Z;
  isAutoRepeat : bool
}.

Definition Key_R : Z := 0x52.
Definition Key_F12 : Z := 0x0100003b.
Definition NoModifier : Z := 0.

(** ** The controller (accessibilitycontroller.cpp) *)

Module AccessibilityController.

(** [struct Item]: the registry entry. *)
Record Item : Type := {
  item : option IAccessiblePtr;
  object : option AccessibleObjectPtr;
  iface : option QAccessibleInterfacePtr
}.

(** A default-constructed [Item], which is also the [static Item invalid]
    of [findItem] and what [QHash::take] returns on a miss. *)
Definition invalid : Item :=
  {| item := None; object := None; iface := None |}.

Definition isValid (it : Item) : bool :=
  nonnull (item it) && nonnull (object it).

(** The data members, the file-static [s_rootObject], the allocator of
    [AccessibleObject]s and the log of outgoing calls. *)
Record Controller : Type := {
  m_enabled : bool;
  m_inited : bool;
  m_lastFocused : option IAccessiblePtr;
  m_announcement : string;
  m_children : list IAccessiblePtr;
  m_allItems : gmap IAccessiblePtr Item;
  m_pretendFocus : option IAccessiblePtr;
  m_repeatHotkeyEnabled : bool;
  m_repeatHotkey : Z;
  m_textToSpeech : bool;
  m_keyFilter : bool;
  s_rootObject : option AccessibleObjectPtr;
  next_object : AccessibleObjectPtr;
  effects : list Effect
}.

Definition set_m_enabled (v : bool) (s : Controller) : Controller :=
  {| m_enabled := v; m_inited := m_inited s; m_lastFocused := m_lastFocused s;
     m_announcement := m_announcement s; m_children := m_children s;
     m_allItems := m_allItems s; m_pretendFocus := m_pretendFocus s;
     m_repeatHotkeyEnabled := m_repeatHotkeyEnabled s;
     m_repeatHotkey := m_repeatHotkey s; m_textToSpeech := m_textToSpeech s;
     m_keyFilter := m_keyFilter s; s_rootObject := s_rootObject s;
     next_object := next_object s; effects := effects s |}.

Definition set_m_inited (v : bool) (s : Controller) : Controller :=
  {| m_enabled := m_enabled s; m_inited := v; m_lastFocused := m_lastFocused s;
     m_announcement := m_announcement s; m_children := m_children s;
     m_allItems := m_allItems s; m_pretendFocus := m_pretendFocus s;
     m_repeatHotkeyEnabled := m_repeatHotkeyEnabled s;
     m_repeatHotkey := m_repeatHotkey s; m_textToSpeech := m_textToSpeech s;
     m_keyFilter := m_keyFilter s; s_rootObject := s_rootObject s;
     next_object := next_object s; effects := effects s |}.

Definition set_m_lastFocused (v : option IAccessiblePtr) (s : Controller) : Controller :=
  {| m_enabled := m_enabled s; m_inited := m_inited s; m_lastFocused := v;
     m_announcement := m_announcement s; m_children := m_children s;
     m_allItems := m_allItems s; m_pretendFocus := m_pretendFocus s;
     m_repeatHotkeyEnabled := m_repeatHotkeyEnabled s;
     m_repeatHotkey := m_repeatHotkey s; m_textToSpeech := m_textToSpeech s;
     m_keyFilter := m_keyFilter s; s_rootObject := s_rootObject s;
     next_object := next_object s; effects := effects s |}.

Definition set_m_announcement (v : string) (s : Controller) : Controller :=
  {| m_enabled := m_enabled s; m_inited := m_inited s; m_lastFocused := m_lastFocused s;
     m_announcement := v; m_children := m_children s;
     m_allItems := m_allItems s; m_pretendFocus := m_pretendFocus s;
     m_repeatHotkeyEnabled := m_repeatHotkeyEnabled s;
     m_repeatHotkey := m_repeatHotkey s; m_textToSpeech := m_textToSpeech s;
     m_keyFilter := m_keyFilter s; s_rootObject := s_rootObject s;
     next_object := next_object s; effects := effects s |}.

Definition set_m_children (v : list IAccessiblePtr) (s : Controller) : Controller :=
  {| m_enabled := m_enabled s; m_inited := m_inited s; m_lastFocused := m_lastFocused s;
     m_announcement := m_announcement s; m_children := v;
     m_allItems := m_allItems s; m_pretendFocus := m_pretendFocus s;
     m_repeatHotkeyEnabled := m_repeatHotkeyEnabled s;
     m_repeatHotkey := m_repeatHotkey s; m_textToSpeech := m_textToSpeech s;
     m_keyFilter := m_keyFilter s; s_rootObject := s_rootObject s;
     next_object := next_object s; effects := effects s |}.

Definition set_m_allItems (v : gmap IAccessiblePtr Item) (s : Controller) : Controller :=
  {| m_enabled := m_enabled s; m_inited := m_inited s; m_lastFocused := m_lastFocused s;
     m_announcement := m_announcement s; m_children := m_children s;
     m_allItems := v; m_pretendFocus := m_pretendFocus s;
     m_repeatHotkeyEnabled := m_repeatHotkeyEnabled s;
     m_repeatHotkey := m_repeatHotkey s; m_textToSpeech := m_textToSpeech s;
     m_keyFilter := m_keyFilter s; s_rootObject := s_rootObject s;
     next_object := next_object s; effects := effects s |}.

Definition set_m_pretendFocus (v : option IAccessiblePtr) (s : Controller) : Controller :=
  {| m_enabled := m_enabled s; m_inited := m_inited s; m_lastFocused := m_lastFocused s;
     m_announcement := m_announcement s; m_children := m_children s;
     m_allItems := m_allItems s; m_pretendFocus := v;
     m_repeatHotkeyEnabled := m_repeatHotkeyEnabled s;
     m_repeatHotkey := m_repeatHotkey s; m_textToSpeech := m_textToSpeech s;
     m_keyFilter := m_keyFilter s; s_rootObject := s_rootObject s;
     next_object := next_object s; effects := effects s |}.

Definition set_m_keyFilter (v : bool) (s : Controller) : Controller :=
  {| m_enabled := m_enabled s; m_inited := m_inited s; m_lastFocused := m_lastFocused s;
     m_announcement := m_announcement s; m_children := m_children s;
     m_allItems := m_allItems s; m_pretendFocus := m_pretendFocus s;
     m_repeatHotkeyEnabled := m_repeatHotkeyEnabled s;
     m_repeatHotkey := m_repeatHotkey s; m_textToSpeech := m_textToSpeech s;
     m_keyFilter := v; s_rootObject := s_rootObject s;
     next_object := next_object s; effects := effects s |}.

Definition set_s_rootObject (v : option AccessibleObjectPtr) (s : Controller) : Controller :=
  {| m_enabled := m_enabled s; m_inited := m_inited s; m_lastFocused := m_lastFocused s;
     m_announcement := m_announcement s; m_children := m_children s;
     m_allItems := m_allItems s; m_pretendFocus := m_pretendFocus s;
     m_repeatHotkeyEnabled := m_repeatHotkeyEnabled s;
     m_repeatHotkey := m_repeatHotkey s; m_textToSpeech := m_textToSpeech s;
     m_keyFilter := m_keyFilter s; s_rootObject := v;
     next_object := next_object s; effects := effects s |}.

Definition set_next_object (v : AccessibleObjectPtr) (s : Controller) : Controller :=
  {| m_enabled := m_enabled s; m_inited := m_inited s; m_lastFocused := m_lastFocused s;
     m_announcement := m_announcement s; m_children := m_children s;
     m_allItems := m_allItems s; m_pretendFocus := m_pretendFocus s;
     m_repeatHotkeyEnabled := m_repeatHotkeyEnabled s;
     m_repeatHotkey := m_repeatHotkey s; m_textToSpeech := m_textToSpeech s;
     m_keyFilter := m_keyFilter s; s_rootObject := s_rootObject s;
     next_object := v; effects := effects s |}.

(** One outgoing call, appended to the log. *)
Definition emit (e : Effect) (s : Controller) : Controller :=
  {| m_enabled := m_enabled s; m_inited := m_inited s; m_lastFocused := m_lastFocused s;
     m_announcement := m_announcement s; m_children := m_children s;
     m_allItems := m_allItems s; m_pretendFocus := m_pretendFocus s;
     m_repeatHotkeyEnabled := m_repeatHotkeyEnabled s;
     m_repeatHotkey := m_repeatHotkey s; m_textToSpeech := m_textToSpeech s;
     m_keyFilter := m_keyFilter s; s_rootObject := s_rootObject s;
     next_object := next_object s; effects := effects s ++ [e] |}.

(** The state the constructor leaves, with the in-class initialisers of
    accessibilitycontroller.h ([hotkey] is [Qt::Key_R] in one header and
    [Qt::Key_F12] in the other). *)
Definition constructed (hotkey : Z) : Controller :=
  {| m_enabled := true; m_inited := false; m_lastFocused := None;
     m_announcement := EmptyString; m_children := [];
     m_allItems := ∅; m_pretendFocus := None;
     m_repeatHotkeyEnabled := true; m_repeatHotkey := hotkey;
     m_textToSpeech := true; m_keyFilter := false; s_rootObject := None;
     next_object := O; effects := [] |}.

Definition setAccessibilityEnabled (enabled : bool) (s : Controller) : Controller :=
  set_m_enabled enabled s.

(** *** IAccessible implementation for the root controller *)

Definition accessibleParent (s : Controller) : option IAccessiblePtr := None.

(** [size_t] is 64 bits wide; [static_cast<int>] keeps the low 32 bits as
    a two's-complement number. *)
Definition static_cast_int (i : Z) : Z :=
  (i + 2 ^ 31) mod 2 ^ 32 - 2 ^ 31.

Definition accessibleChildCount (s : Controller) : Z :=
  Z.of_nat (length (m_children s)).

(** [QList::at] is only defined inside the list; outside it the model
    answers [None]. *)
Definition accessibleChild (s : Controller) (i : Z) : option IAccessiblePtr :=
  if i >=? Z.of_nat (length (m_children s)) then None
  else
    let j := static_cast_int i in
    if j <? 0 then None else m_children s !! Z.to_nat j.

Definition accessibleRole (s : Controller) : IAccessible.Role :=
  IAccessible.Application.

Definition accessibleName (s : Controller) : string := "MuseScore"%string.

Definition accessibleDescription (s : Controller) : string := EmptyString.

Definition accessibleState (s : Controller) (st : IAccessible.State) : bool :=
  match st with
  | IAccessible.Enabled => m_enabled s
  | IAccessible.Active => true
  | _ => false
  end.

Definition accessibleIgnored (s : Controller) : bool := false.

Definition accessibleValue (s : Controller) : QVariant := None.
Definition accessibleMaximumValue (s : Controller) : QVariant := None.
Definition accessibleMinimumValue (s : Controller) : QVariant := None.
Definition accessibleValueStepSize (s : Controller) : QVariant := None.

Definition accessibleSelection (s : Controller) (selectionIndex : Z) : Z * Z := (0, 0).
Definition accessibleSelectionCount (s : Controller) : Z := 0.
Definition accessibleCursorPosition (s : Controller) : Z := 0.
Definition accessibleText (s : Controller) (startOffset endOffset : Z) : string :=
  EmptyString.

Definition accessibleTextBeforeOffset (s : Controller) (offset : Z)
  (b : IAccessible.TextBoundaryType) : string * Z * Z := (EmptyString, 0, 0).

Definition accessibleTextAfterOffset (s : Controller) (offset : Z)
  (b : IAccessible.TextBoundaryType) : string * Z * Z := (EmptyString, 0, 0).

Definition accessibleTextAtOffset (s : Controller) (offset : Z)
  (b : IAccessible.TextBoundaryType) : string * Z * Z := (EmptyString, 0, 0).

Definition accessibleCharacterCount (s : Controller) : Z := 0.
Definition accessibleRowIndex (s : Controller) : Z := 0.

(** The controller seen through its [IAccessible] base. *)
Definition asIAccessible (E : Env) (s : Controller) : IAccessible.t :=
  {| IAccessible.accessibleParent := accessibleParent s;
     IAccessible.accessibleChildCount := accessibleChildCount s;
     IAccessible.accessibleChild := accessibleChild s;
     IAccessible.accessibleRole := accessibleRole s;
     IAccessible.accessibleName := accessibleName s;
     IAccessible.accessibleDescription := accessibleDescription s;
     IAccessible.accessibleState := accessibleState s;
     IAccessible.accessibleIgnored := accessibleIgnored s;
     IAccessible.accessibleValue := accessibleValue s;
     IAccessible.accessibleMaximumValue := accessibleMaximumValue s;
     IAccessible.accessibleMinimumValue := accessibleMinimumValue s;
     IAccessible.accessibleValueStepSize := accessibleValueStepSize s;
     IAccessible.accessibleSelection := accessibleSelection s;
     IAccessible.accessibleSelectionCount := accessibleSelectionCount s;
     IAccessible.accessibleCursorPosition := accessibleCursorPosition s;
     IAccessible.accessibleText := accessibleText s;
     IAccessible.accessibleTextBeforeOffset := accessibleTextBeforeOffset s;
     IAccessible.accessibleTextAfterOffset := accessibleTextAfterOffset s;
     IAccessible.accessibleTextAtOffset := accessibleTextAtOffset s;
     IAccessible.accessibleCharacterCount := accessibleCharacterCount s;
     IAccessible.accessibleRowIndex := accessibleRowIndex s;
     IAccessible.accessibleScreenReaderInfo := base_screenReaderInfo E;
     IAccessible.accessibleExtraInfo := base_extraInfo E |}.

(** Virtual dispatch through an [IAccessible*]. *)
Definition deref (E : Env) (s : Controller) (p : IAccessiblePtr) : IAccessible.t :=
  match p with
  | This => asIAccessible E s
  | Obj n => app E n
  end.

(** *** Lookup *)

(** [QHash::constFind] on a key that is absent yields [constEnd()]; every
    key of the table is a non-null pointer. *)
Definition findItem (s : Controller) (aitem : option IAccessiblePtr) : Item :=
  match aitem with
  | None => invalid
  | Some a =>
      match m_allItems s !! a with
      | None => invalid
      | Some it => it
      end
  end.

Definition isUsable (E : Env) (s : Controller) (it : Item) : bool :=
  isValid it &&
  match item it with
  | Some p => negb (IAccessible.accessibleIgnored (deref E s p))
  | None => false
  end.

(** *** Event helpers *)

Definition sendEvent (ev : QAccessibleEvent) (s : Controller) : Controller :=
  emit (UpdateAccessibility ev) (emit (ChannelSend ev) s).

Definition needsRevoicing (i : QAccessibleInterfacePtr)
  (eventType : QAccessibleEventType) : bool := false.

Definition triggerRevoicing (current : Item) (s : Controller) : Controller :=
  if negb (nonnull (object current)) then s
  else sendEvent {| ev_object := object current; ev_type := NameChanged |} s.

(** *** Registration *)

(** The part of [reg] after the one-time initialisation. *)
Definition reg_entry (E : Env) (a : IAccessiblePtr) (s : Controller) : Controller :=
  if isValid (findItem s (Some a)) then s
  else
    let o := next_object s in
    let s := set_next_object (S o) s in
    let it := {| item := Some a; object := Some o;
                 iface := queryAccessibleInterface E o |} in
    let s := set_m_allItems (<[a := it]> (m_allItems s)) s in
    let s :=
      if decide (IAccessible.accessibleParent (deref E s a) = Some This)
      then set_m_children (m_children s ++ [a]) s
      else s in
    sendEvent {| ev_object := object it; ev_type := ObjectCreated |} s.

(** [init], with its call of [reg(this)] left open as [reg_rec]. *)
Definition init_with (reg_rec : IAccessiblePtr -> Controller -> option Controller)
  (E : Env) (s : Controller) : option Controller :=
  let s := emit InstallFactory s in
  s ← reg_rec This s;
  let self := findItem s (Some This) in
  let s := set_s_rootObject (object self) s in
  let s := emit InstallRootObjectHandler s in
  let s := emit (SetRootObject (s_rootObject s)) s in
  Some (if qApp E && negb (m_keyFilter s)
        then emit InstallEventFilter (set_m_keyFilter true s)
        else s).

Definition reg_with (reg_rec : IAccessiblePtr -> Controller -> option Controller)
  (E : Env) (a : IAccessiblePtr) (s : Controller) : option Controller :=
  if negb (m_enabled s) then Some s
  else
    s ← (if negb (m_inited s)
         then init_with reg_rec E (set_m_inited true s)
         else Some s);
    Some (reg_entry E a s).

(** [reg] and [init] call each other; [fuel] bounds the call depth and
    [None] means it ran out. *)
Fixpoint reg_fuel (fuel : nat) (E : Env) (a : IAccessiblePtr) (s : Controller)
  : option Controller :=
  match fuel with
  | O => None
  | S fuel' => reg_with (reg_fuel fuel' E) E a s
  end.

(** The call depth never exceeds two: the [reg(this)] inside [init] finds
    [m_inited] already set. *)
Definition reg (E : Env) (a : IAccessiblePtr) (s : Controller) : Controller :=
  default s (reg_fuel 2 E a s).

Definition init (E : Env) (s : Controller) : Controller :=
  default s (init_with (reg_fuel 1 E) E s).

(** [QList::removeOne]: drop the first occurrence. *)
Fixpoint removeOne (a : IAccessiblePtr) (l : list IAccessiblePtr)
  : list IAccessiblePtr :=
  match l with
  | [] => []
  | x :: l' => if decide (x = a) then l' else x :: removeOne a l'
  end.

Definition unreg (aitem : option IAccessiblePtr) (s : Controller) : Controller :=
  match aitem with
  | None => s
  | Some a =>
      let it := default invalid (m_allItems s !! a) in
      let s := set_m_allItems (delete a (m_allItems s)) s in
      if negb (isValid it) then s
      else
        let s := if decide (item it = m_lastFocused s)
                 then set_m_lastFocused None s else s in
        let s := if decide (item it = m_pretendFocus s)
                 then set_m_pretendFocus None s else s in
        let s := if bool_decide (a ∈ m_children s)
                 then set_m_children (removeOne a (m_children s)) s else s in
        let s := sendEvent {| ev_object := object it; ev_type := ObjectDestroyed |} s in
        emit (DeleteObject (object it)) s
  end.

(** *** Announcements *)

Definition announce (announcement : string) (s : Controller) : Controller :=
  let s := set_m_announcement announcement s in
  if negb (nonnull (m_lastFocused s)) || isEmpty announcement then s
  else
    let focused := findItem s (m_lastFocused s) in
    if negb (isValid focused) then s
    else
      if match iface focused with
         | Some i => needsRevoicing i NameChanged
         | None => false
         end
      then triggerRevoicing focused s
      else sendEvent {| ev_object := object focused; ev_type := NameChanged |} s.

(** *** Focus *)

Definition setExternalFocus (E : Env) (other : Item) (s : Controller) : Controller :=
  if negb (isUsable E s other) then s
  else set_m_lastFocused (item other) s.

Definition restoreFocus (E : Env) (s : Controller) : Controller :=
  if negb (nonnull (m_pretendFocus s)) then s
  else
    let it := findItem s (m_pretendFocus s) in
    if negb (isUsable E s it) then set_m_pretendFocus None s
    else set_m_pretendFocus None (setExternalFocus E it s).

(** *** Spoken description *)

Definition QStringList_isEmpty (parts : list string) : bool :=
  match parts with [] => true | _ :: _ => false end.

Definition buildSpokenDescriptionFor (acc : option IAccessible.t) : string :=
  match acc with
  | None => "No element focused"%string
  | Some acc =>
      (* Score elements: [Some text] is the early return. *)
      let score : option string :=
        if decide (IAccessible.accessibleRole acc = IAccessible.ElementOnScore) then
          let mainInfo := IAccessible.accessibleScreenReaderInfo acc in
          let extra := IAccessible.accessibleExtraInfo acc in
          let parts : list string := [] in
          let parts := if negb (isEmpty mainInfo) then parts ++ [mainInfo] else parts in
          let parts := if negb (isEmpty extra) then parts ++ [extra] else parts in
          if negb (QStringList_isEmpty parts) then Some (join "; " parts) else None
        else None in
      match score with
      | Some text => text
      | None =>
          (* Generic UI element *)
          let parts : list string := [] in
          let name := IAccessible.accessibleName acc in
          let desc := IAccessible.accessibleDescription acc in
          let val := toString (IAccessible.accessibleValue acc) in
          let parts := if negb (isEmpty name) then parts ++ [name] else parts in
          let parts := if negb (isEmpty desc) then parts ++ [desc] else parts in
          let parts := if negb (isEmpty val)
                       then parts ++ [("value: " +:+ val)%string] else parts in
          if QStringList_isEmpty parts then "Unknown element"%string
          else join ", " parts
      end
  end.

Definition lastFocused (s : Controller) : option IAccessiblePtr := m_lastFocused s.

Definition repeatCurrentElementInfo (E : Env) (s : Controller) : Controller :=
  if negb (m_textToSpeech s) then s
  else
    let textToSpeak :=
      match m_lastFocused s with
      | Some p => buildSpokenDescriptionFor (Some (deref E s p))
      | None => EmptyString
      end in
    (* fall back to the platform's information about the focus object *)
    let textToSpeak :=
      if isEmpty textToSpeak then
        match focusObjectText E with
        | Some (name, descr, value) =>
            let parts : list string := [] in
            let parts := if negb (isEmpty name) then parts ++ [name] else parts in
            let parts := if negb (isEmpty descr) then parts ++ [descr] else parts in
            let parts := if negb (isEmpty value) then parts ++ [value] else parts in
            if negb (QStringList_isEmpty parts) then join ", " parts else textToSpeak
        | None => textToSpeak
        end
      else textToSpeak in
    let textToSpeak :=
      if isEmpty textToSpeak then "No element focused"%string else textToSpeak in
    let s := if decide (tts_state E = TtsSpeaking) then emit TtsStop s else s in
    emit (TtsSay textToSpeak) s.

(** The later revision of the file: no fallback to the focus object. *)
Definition repeatCurrentElementInfo_rev2 (E : Env) (s : Controller) : Controller :=
  if negb (m_textToSpeech s) then s
  else
    let focused := m_lastFocused s in
    let textToSpeak := buildSpokenDescriptionFor (deref E s <$> focused) in
    let textToSpeak :=
      if isEmpty textToSpeak then "No element focused"%string else textToSpeak in
    let s := if decide (tts_state E = TtsSpeaking) then emit TtsStop s else s in
    emit (TtsSay textToSpeak) s.

(** *** Global key filter *)

(** Returns whether the event is consumed, and the new state.  The fields
    [key], [modifiers] and [isAutoRepeat] are only read for a [KeyPress]. *)
Definition eventFilter (E : Env) (event : option QKeyEvent) (s : Controller)
  : bool * Controller :=
  match event with
  | None => (false, s)
  | Some ke =>
      if negb (m_repeatHotkeyEnabled s) then (false, s)
      else if decide (type ke = KeyPress) then
        if negb (isAutoRepeat ke)
           && (key ke =? m_repeatHotkey s)
           && (modifiers ke =? NoModifier)
        then (true, repeatCurrentElementInfo E s)
        else (false, s)
      else (false, s)
  end.

(** The later revision speaks but does not consume the event. *)
Definition eventFilter_rev2 (E : Env) (event : option QKeyEvent) (s : Controller)
  : bool * Controller :=
  match event with
  | None => (false, s)
  | Some ke =>
      if negb (m_repeatHotkeyEnabled s) then (false, s)
      else if decide (type ke = KeyPress) then
        if negb (isAutoRepeat ke)
           && (key ke =? m_repeatHotkey s)
           && (modifiers ke =? NoModifier)
        then (false, repeatCurrentElementInfo_rev2 E s)
        else (false, s)
      else (false, s)
  end.

End AccessibilityController.

(** ** The speech repeater (accessibilityrepeater.cpp) *)

Module AccessibilityRepeater.

Definition getCurrentElementInfo (E : Env)
  (s : AccessibilityController.Controller) : string :=
  match AccessibilityController.lastFocused s with
  | None => "No element focused"%string
  | Some p =>
      let focused := AccessibilityController.deref E s p in
      let score : option string :=
        if decide (IAccessible.accessibleRole focused = IAccessible.ElementOnScore) then
          let mainInfo := IAccessible.accessibleScreenReaderInfo focused in
          let extra := IAccessible.accessibleExtraInfo focused in
          let parts : list string := [] in
          let parts := if negb (isEmpty mainInfo) then parts ++ [mainInfo] else parts in
          let parts := if negb (isEmpty extra) then parts ++ [extra] else parts in
          if negb (AccessibilityController.QStringList_isEmpty parts)
          then Some (join "; " parts) else None
        else None in
      match score with
      | Some text => text
      | None =>
          let parts : list string := [] in
          let name := IAccessible.accessibleName focused in
          let desc := IAccessible.accessibleDescription focused in
          let val := toString (IAccessible.accessibleValue focused) in
          let parts := if negb (isEmpty name) then parts ++ [name] else parts in
          let parts := if negb (isEmpty desc) then parts ++ [desc] else parts in
          let parts := if negb (isEmpty val)
                       then parts ++ [("value: " +:+ val)%string] else parts in
          if AccessibilityController.QStringList_isEmpty parts
          then "Unknown element"%string
          else join ", " parts
      end
  end.

End AccessibilityRepeater.

(** ** The platform wrapper (accessibleiteminterface.cpp) *)

Module AccessibleItemInterface.

(** The bit-fields of [QAccessible::State] that [state()] assigns.  The
    constructor of [QAccessible::State] clears every bit. *)
Record QState : Type := {
  disabled : bool;
  invisible : bool;
  invalid : bool;
  active : bool;
  focusable : bool;
  focused : bool;
  checkable : bool;
  checked : bool;
  selectable : bool;
  selected : bool
}.

Inductive Flag : Type :=
| f_disabled | f_invisible | f_invalid | f_active | f_focusable | f_focused
| f_checkable | f_checked | f_selectable | f_selected.

#[global] Instance Flag_eq_dec : EqDecision Flag.
Proof. solve_decision. Defined.

Definition cleared : QState :=
  {| disabled := false; invisible := false; invalid := false; active := false;
     focusable := false; focused := false; checkable := false; checked := false;
     selectable := false; selected := false |}.

(** The assignment [state.f = v]. *)
Definition assign (f : Flag) (v : bool) (st : QState) : QState :=
  {| disabled := if decide (f = f_disabled) then v else disabled st;
     invisible := if decide (f = f_invisible) then v else invisible st;
     invalid := if decide (f = f_invalid) then v else invalid st;
     active := if decide (f = f_active) then v else active st;
     focusable := if decide (f = f_focusable) then v else focusable st;
     focused := if decide (f = f_focused) then v else focused st;
     checkable := if decide (f = f_checkable) then v else checkable st;
     checked := if decide (f = f_checked) then v else checked st;
     selectable := if decide (f = f_selectable) then v else selectable st;
     selected := if decide (f = f_selected) then v else selected st |}.

(** [state()], on the item [m_object->item()] points to. *)
Definition state (item : IAccessible.t) : QState :=
  let st := cleared in
  let st := assign f_invalid false st in
  let st := assign f_disabled
              (negb (IAccessible.accessibleState item IAccessible.Enabled)) st in
  let st := assign f_invisible (disabled st) st in
  if disabled st then st
  else
    let focusableFocused st :=
      assign f_focused (IAccessible.accessibleState item IAccessible.Focused)
        (assign f_focusable true st) in
    match IAccessible.accessibleRole item with
    | IAccessible.NoRole => st
    | IAccessible.Application => assign f_active true st
    | IAccessible.Dialog | IAccessible.Panel | IAccessible.List =>
        assign f_active (IAccessible.accessibleState item IAccessible.Active) st
    | IAccessible.RadioButton | IAccessible.CheckBox =>
        assign f_checked (IAccessible.accessibleState item IAccessible.Checked)
          (assign f_checkable true (focusableFocused st))
    | IAccessible.ListItem =>
        assign f_selected (IAccessible.accessibleState item IAccessible.Selected)
          (assign f_selectable true (focusableFocused st))
    | IAccessible.Button | IAccessible.EditableText | IAccessible.StaticText
    | IAccessible.SilentRole | IAccessible.Information
    | IAccessible.ElementOnScore | IAccessible.ComboBox | IAccessible.MenuItem
    | IAccessible.SpinBox | IAccessible.Range | IAccessible.Group =>
        focusableFocused st
    | IAccessible.OtherRole _ => st
    end.

End AccessibleItemInterface.

(** ** A score element as an accessible item (accessible_score_element.h) *)

Module AccessibleScoreElement.

Record ScoreElement : Type := {
  m_elem : option nat;
  m_focused : bool;
  m_selected : bool
}.

Definition buildScreenReaderMain (e : ScoreElement) : string :=
  if negb (nonnull (m_elem e)) then "Score element"%string
  else "Score element"%string.

Definition buildScreenReaderExtra (e : ScoreElement) : string := EmptyString.

Definition accessibleState (e : ScoreElement) (st : IAccessible.State) : bool :=
  match st with
  | IAccessible.Enabled => nonnull (m_elem e)
  | IAccessible.Active => true
  | IAccessible.Focused => m_focused e
  | IAccessible.Selected => m_selected e
  | _ => false
  end.

Definition asIAccessible (e : ScoreElement) : IAccessible.t :=
  {| IAccessible.accessibleParent := None;
     IAccessible.accessibleChildCount := 0;
     IAccessible.accessibleChild := λ _, None;
     IAccessible.accessibleRole := IAccessible.ElementOnScore;
     IAccessible.accessibleName := buildScreenReaderMain e;
     IAccessible.accessibleDescription := buildScreenReaderExtra e;
     IAccessible.accessibleState := accessibleState e;
     IAccessible.accessibleIgnored := negb (nonnull (m_elem e));
     IAccessible.accessibleValue := None;
     IAccessible.accessibleMaximumValue := None;
     IAccessible.accessibleMinimumValue := None;
     IAccessible.accessibleValueStepSize := None;
     IAccessible.accessibleSelection := λ _, (0, 0);
     IAccessible.accessibleSelectionCount := 0;
     IAccessible.accessibleCursorPosition := 0;
     IAccessible.accessibleText := λ _ _, EmptyString;
     IAccessible.accessibleTextBeforeOffset := λ _ _, (EmptyString, 0, 0);
     IAccessible.accessibleTextAfterOffset := λ _ _, (EmptyString, 0, 0);
     IAccessible.accessibleTextAtOffset := λ _ _, (EmptyString, 0, 0);
     IAccessible.accessibleCharacterCount := 0;
     IAccessible.accessibleRowIndex := 0;
     IAccessible.accessibleScreenReaderInfo := buildScreenReaderMain e;
     IAccessible.accessibleExtraInfo := buildScreenReaderExtra e |}.

End AccessibleScoreElement.

(** ** Specification-level definitions *)

Module Spec.

Import AccessibilityController.

(** The strings of [l] that are not empty, in order. *)
Definition nonEmpty (l : list string) : list string :=
  List.filter (λ x, negb (isEmpty x)) l.

(** The spoken description in the words of the specification.  A part is
    present when the item's own string is non-empty; the value, when
    present, is spoken as ["value: "] followed by it. *)
Definition spokenDescription (acc : option IAccessible.t) : string :=
  match acc with
  | None => "No element focused"%string
  | Some it =>
      let document :=
        nonEmpty [IAccessible.accessibleScreenReaderInfo it;
                  IAccessible.accessibleExtraInfo it] in
      let generic :=
        nonEmpty [IAccessible.accessibleName it;
                  IAccessible.accessibleDescription it]
        ++ List.map (λ v, ("value: " +:+ v)%string)
             (nonEmpty [toString (IAccessible.accessibleValue it)]) in
      if bool_decide (IAccessible.accessibleRole it = IAccessible.ElementOnScore
                      ∧ document ≠ [])
      then join "; " document
      else if bool_decide (generic = []) then "Unknown element"%string
      else join ", " generic
  end.

(** An entry for [a] as [reg] writes it: keyed by the item it wraps, with
    a wrapper object. *)
Definition registered (s : Controller) (a : IAccessiblePtr) : Prop :=
  ∃ it, m_allItems s !! a = Some it ∧ item it = Some a ∧ nonnull (object it) = true.

(** The invariant of the entry table: every entry is keyed by its own item
    and owns a wrapper, and the table is empty until [init] has run. *)
Definition wf (s : Controller) : Prop :=
  (∀ k it, m_allItems s !! k = Some it →
           item it = Some k ∧ nonnull (object it) = true)
  ∧ (m_inited s = false → m_allItems s = ∅).

(** The states a controller goes through: the constructor, then any
    sequence of calls of its member functions, in either revision of the
    key filter. *)
Inductive reachable (E : Env) : Controller → Prop :=
| reach_constructed hotkey :
    reachable E (constructed hotkey)
| reach_setAccessibilityEnabled b s :
    reachable E s → reachable E (setAccessibilityEnabled b s)
| reach_reg a s :
    reachable E s → reachable E (reg E a s)
| reach_unreg p s :
    reachable E s → reachable E (unreg p s)
| reach_announce text s :
    reachable E s → reachable E (announce text s)
| reach_setExternalFocus other s :
    reachable E s → reachable E (setExternalFocus E other s)
| reach_restoreFocus s :
    reachable E s → reachable E (restoreFocus E s)
| reach_repeatCurrentElementInfo s :
    reachable E s → reachable E (repeatCurrentElementInfo E s)
| reach_eventFilter event s :
    reachable E s → reachable E (eventFilter E event s).2
| reach_repeatCurrentElementInfo_rev2 s :
    reachable E s → reachable E (repeatCurrentElementInfo_rev2 E s)
| reach_eventFilter_rev2 event s :
    reachable E s → reachable E (eventFilter_rev2 E event s).2.

(** What [init] computes once [m_inited] is set and accessibility is
    enabled: its [reg(this)] goes straight to the entry. *)
Definition init_result (E : Env) (s : Controller) : Controller :=
  let s := reg_entry E This (emit InstallFactory s) in
  let s := set_s_rootObject (object (findItem s (Some This))) s in
  let s := emit InstallRootObjectHandler s in
  let s := emit (SetRootObject (s_rootObject s)) s in
  if qApp E && negb (m_keyFilter s)
  then emit InstallEventFilter (set_m_keyFilter true s)
  else s.

(** The accessibility events among the outgoing calls. *)
Definition accessibilityEvents (s : Controller) : list Effect :=
  List.filter isAccessibilityEvent (effects s).

End Spec.

(** ** A small application used in the examples *)

Module Example.

Import AccessibilityController.

Definition plainItem (parent : option IAccessiblePtr) (role : IAccessible.Role)
  (name : string) (enabled : bool) : IAccessible.t :=
  {| IAccessible.accessibleParent := parent;
     IAccessible.accessibleChildCount := 0;
     IAccessible.accessibleChild := λ _, None;
     IAccessible.accessibleRole := role;
     IAccessible.accessibleName := name;
     IAccessible.accessibleDescription := EmptyString;
     IAccessible.accessibleState :=
       λ st, match st with IAccessible.Enabled => enabled | _ => false end;
     IAccessible.accessibleIgnored := false;
     IAccessible.accessibleValue := None;
     IAccessible.accessibleMaximumValue := None;
     IAccessible.accessibleMinimumValue := None;
     IAccessible.accessibleValueStepSize := None;
     IAccessible.accessibleSelection := λ _, (0, 0);
     IAccessible.accessibleSelectionCount := 0;
     IAccessible.accessibleCursorPosition := 0;
     IAccessible.accessibleText := λ _ _, EmptyString;
     IAccessible.accessibleTextBeforeOffset := λ _ _, (EmptyString, 0, 0);
     IAccessible.accessibleTextAfterOffset := λ _ _, (EmptyString, 0, 0);
     IAccessible.accessibleTextAtOffset := λ _ _, (EmptyString, 0, 0);
     IAccessible.accessibleCharacterCount := 0;
     IAccessible.accessibleRowIndex := 0;
     IAccessible.accessibleScreenReaderInfo := EmptyString;
     IAccessible.accessibleExtraInfo := EmptyString |}.

(** Item 1 is a panel under the root, item 2 a button inside item 1;
    every other address is a disabled button without a parent. *)
Definition E0 : Env :=
  {| app := λ n,
       match n with
       | 1%nat => plainItem (Some This) IAccessible.Panel "Palettes" true
       | 2%nat => plainItem (Some (Obj 1)) IAccessible.Button "Add" true
       | _ => plainItem None IAccessible.Button "Off" false
       end;
     queryAccessibleInterface := λ o, Some o;
     qApp := true;
     tts_state := TtsReady;
     focusObjectText := None;
     base_screenReaderInfo := EmptyString;
     base_extraInfo := EmptyString |}.

Definition s0 : Controller := constructed Key_F12.

(** Root and item 1 registered. *)
Definition s1 : Controller := reg E0 (Obj 1) s0.

(** Item 1 has the focus and is the pretend-focus target. *)
Definition s1_focused : Controller :=
  set_m_pretendFocus (Some (Obj 1)) (set_m_lastFocused (Some (Obj 1)) s1).

Definition hotkeyPress : QKeyEvent :=
  {| type := KeyPress; key := Key_F12; modifiers := NoModifier;
     isAutoRepeat := false |}.

Definition hotkeyAutoRepeat : QKeyEvent :=
  {| type := KeyPress; key := Key_F12; modifiers := NoModifier;
     isAutoRepeat := true |}.

End Example.

(** ** Tree utilities of the controller (accessibilitycontroller.cpp) *)

Module Navigation.

Import AccessibilityController.

(** [static_cast<size_t>] of an [int]: the value modulo 2^64. *)
Definition static_cast_size_t (i : Z) : Z := i mod 2 ^ 64.

Definition findSiblingItem (parent current : Item) : Item := invalid.

Definition parentIface (E : Env) (s : Controller) (item : option IAccessiblePtr)
  : option QAccessibleInterfacePtr :=
  match item with
  | None => None
  | Some p =>
      match IAccessible.accessibleParent (deref E s p) with
      | None => None
      | Some parent => iface (findItem s (Some parent))
      end
  end.

Definition childCount (E : Env) (s : Controller) (item : option IAccessiblePtr) : Z :=
  match item with
  | Some p => static_cast_int (IAccessible.accessibleChildCount (deref E s p))
  | None => 0
  end.

Definition child (E : Env) (s : Controller) (item : option IAccessiblePtr) (i : Z)
  : option QAccessibleInterfacePtr :=
  match item with
  | None => None
  | Some p =>
      match IAccessible.accessibleChild (deref E s p) (static_cast_size_t i) with
      | None => None
      | Some ch => iface (findItem s (Some ch))
      end
  end.

(** The [for] loop of [indexOfChild] over the indices still to visit:
    [hit i] is the test that makes it return [i]. *)
Fixpoint firstIndex (hit : Z → bool) (indices : list Z) : Z :=
  match indices with
  | [] => -1
  | i :: rest => if hit i then i else firstIndex hit rest
  end.

Definition indexOfChild (E : Env) (s : Controller) (item : option IAccessiblePtr)
  (ifc : option QAccessibleInterfacePtr) : Z :=
  match item, ifc with
  | Some p, Some _ =>
      let count := static_cast_int (IAccessible.accessibleChildCount (deref E s p)) in
      firstIndex
        (λ i, match IAccessible.accessibleChild (deref E s p) (static_cast_size_t i) with
              | None => false
              | Some ch => bool_decide (iface (findItem s (Some ch)) = ifc)
              end)
        (seqZ 0 count)
  | _, _ => -1
  end.

(** The [for] loop of [focusedChild] over the indices still to visit. *)
Fixpoint focusedChild_loop (E : Env) (s : Controller) (p : IAccessiblePtr)
  (indices : list Z) : option QAccessibleInterfacePtr :=
  match indices with
  | [] => None
  | i :: rest =>
      match IAccessible.accessibleChild (deref E s p) (static_cast_size_t i) with
      | None => focusedChild_loop E s p rest
      | Some ch =>
          if IAccessible.accessibleState (deref E s ch) IAccessible.Focused
          then iface (findItem s (Some ch))
          else focusedChild_loop E s p rest
      end
  end.

Definition focusedChild (E : Env) (s : Controller) (item : option IAccessiblePtr)
  : option QAccessibleInterfacePtr :=
  match item with
  | None => None
  | Some p =>
      let count := static_cast_int (IAccessible.accessibleChildCount (deref E s p)) in
      focusedChild_loop E s p (seqZ 0 count)
  end.

(** [panel]: the [while] loop climbs the parent pointers; [fuel] bounds the
    number of iterations and the outer [None] means it ran out. *)
Fixpoint panel (fuel : nat) (E : Env) (s : Controller) (current : option IAccessiblePtr)
  : option (option IAccessiblePtr) :=
  match current with
  | None => Some None
  | Some p =>
      match fuel with
      | O => None
      | S fuel' =>
          if decide (IAccessible.accessibleRole (deref E s p) = IAccessible.Panel)
          then Some current
          else panel fuel' E s (IAccessible.accessibleParent (deref E s p))
      end
  end.

Definition currentPanelAccessibleName (fuel : nat) (E : Env) (s : Controller)
  : option string :=
  focusedItemPanel ← panel fuel E s (m_lastFocused s);
  Some match focusedItemPanel with
       | Some p => IAccessible.accessibleName (deref E s p)
       | None => EmptyString
       end.

Definition pretendFocus (s : Controller) : option IAccessiblePtr := m_pretendFocus s.

Definition announcement (s : Controller) : string := m_announcement s.

End Navigation.

(** ** The key filter object (accessibilitycontroller.cpp, anonymous namespace) *)

Module AccessibilityKeyFilter.

Import AccessibilityController.

(** [QObject::eventFilter] of the base class filters nothing. *)
Definition QObject_eventFilter (event : option QKeyEvent) : bool := false.

(** [m_controller] is the controller the filter forwards to, or null. *)
Definition eventFilter (E : Env) (m_controller : option Controller)
  (event : option QKeyEvent) : bool * option Controller :=
  match m_controller with
  | None => (QObject_eventFilter event, None)
  | Some s =>
      let '(handled, s) := AccessibilityController.eventFilter E event s in
      if handled then (true, Some s)
      else (QObject_eventFilter event, Some s)
  end.

End AccessibilityKeyFilter.

(** ** The platform wrapper, continued (accessibleiteminterface.cpp) *)

(** The operating systems the preprocessor conditions tell apart:
    [Q_OS_WIN] / [Q_OS_WINDOWS], [Q_OS_MACOS] / [Q_OS_MAC], and the rest. *)
Inductive Platform : Type := Windows | MacOS | OtherOS.

#[global] Instance Platform_eq_dec : EqDecision Platform.
Proof. solve_decision. Defined.

(** The enumerations of [QAccessible] the wrapper maps to and from. *)
Module QAccessible.

Inductive Role : Type :=
| NoRole | Application | Dialog | Pane | StaticText | EditableText | Button
| CheckBox | RadioButton | ComboBox | List | ListItem | MenuItem | SpinBox
| Slider | UserRole.

Inductive Text : Type :=
| Name | Description | Value | Help | Accelerator | DebugDescription | UserText.

Inductive InterfaceType : Type :=
| TextInterface | EditableTextInterface | ValueInterface | ActionInterface
| ImageInterface | TableInterface | TableCellInterface | HyperlinkInterface
| SelectionInterface | AttributesInterface.

Inductive TextBoundaryType : Type :=
| CharBoundary | WordBoundary | SentenceBoundary | ParagraphBoundary
| LineBoundary | NoBoundary.

#[global] Instance Role_eq_dec : EqDecision Role.
Proof. solve_decision. Defined.

#[global] Instance Text_eq_dec : EqDecision Text.
Proof. solve_decision. Defined.

#[global] Instance InterfaceType_eq_dec : EqDecision InterfaceType.
Proof. solve_decision. Defined.

End QAccessible.

Module ItemInterface.

(** What the wrapper reads from the controller it reaches through
    [m_object->controller().lock()]: the answers of its four getters. *)
Record ControllerView : Type := {
  cv_lastFocused : option IAccessiblePtr;
  cv_announcement : string;
  cv_needToVoicePanelInfo : bool;
  cv_currentPanelAccessibleName : string
}.

(** Which of its base interfaces [interface_cast] hands out. *)
Inductive Cast : Type :=
| AsValueInterface | AsTextInterface | AsTableCellInterface.

(** Tree navigation: this version answers "no tree" from the wrapper. *)
Definition parent : option QAccessibleInterfacePtr := None.
Definition childCount : Z := 0.
Definition child (i : Z) : option QAccessibleInterfacePtr := None.
Definition indexOfChild (ifc : option QAccessibleInterfacePtr) : Z := -1.
Definition focusChild : option QAccessibleInterfacePtr := None.
Definition table : option QAccessibleInterfacePtr := parent.

Definition role (pf : Platform) (item : IAccessible.t) : QAccessible.Role :=
  match IAccessible.accessibleRole item with
  | IAccessible.NoRole => QAccessible.NoRole
  | IAccessible.Application => QAccessible.Application
  | IAccessible.Dialog => QAccessible.Dialog
  | IAccessible.Panel =>
      if decide (pf = Windows) then QAccessible.StaticText else QAccessible.Pane
  | IAccessible.StaticText => QAccessible.StaticText
  | IAccessible.SilentRole =>
      if decide (pf = MacOS) then QAccessible.StaticText else QAccessible.ListItem
  | IAccessible.EditableText => QAccessible.EditableText
  | IAccessible.Button => QAccessible.Button
  | IAccessible.CheckBox => QAccessible.CheckBox
  | IAccessible.RadioButton => QAccessible.RadioButton
  | IAccessible.ComboBox => QAccessible.ComboBox
  | IAccessible.List => QAccessible.List
  | IAccessible.ListItem => QAccessible.ListItem
  | IAccessible.MenuItem => QAccessible.MenuItem
  | IAccessible.SpinBox => QAccessible.SpinBox
  | IAccessible.Range => QAccessible.Slider
  | IAccessible.Group | IAccessible.Information | IAccessible.ElementOnScore =>
      if decide (pf = Windows) then QAccessible.StaticText else QAccessible.UserRole
  | IAccessible.OtherRole _ => QAccessible.NoRole
  end.

Definition interface_cast (pf : Platform) (item : IAccessible.t)
  (type : QAccessible.InterfaceType) : option Cast :=
  let itemRole := role pf item in
  if bool_decide (type = QAccessible.ValueInterface)
     && bool_decide (itemRole = QAccessible.Slider)
  then Some AsValueInterface
  else if bool_decide (type = QAccessible.TextInterface)
  then Some AsTextInterface
  else
    let isListType := bool_decide (type = QAccessible.TableCellInterface) in
    let isListType :=
      if decide (pf = Windows)
      then isListType || bool_decide (type = QAccessible.ActionInterface)
      else isListType in
    if isListType && bool_decide (itemRole = QAccessible.ListItem)
    then Some AsTableCellInterface
    else None.

Definition muBoundaryType (qtBoundaryType : QAccessible.TextBoundaryType)
  : IAccessible.TextBoundaryType :=
  match qtBoundaryType with
  | QAccessible.CharBoundary => IAccessible.CharBoundary
  | QAccessible.WordBoundary => IAccessible.WordBoundary
  | QAccessible.SentenceBoundary => IAccessible.SentenceBoundary
  | QAccessible.ParagraphBoundary => IAccessible.ParagraphBoundary
  | QAccessible.LineBoundary => IAccessible.LineBoundary
  | QAccessible.NoBoundary => IAccessible.NoBoundary
  end.

Definition isSelected (item : IAccessible.t) : bool :=
  IAccessible.accessibleState item IAccessible.Selected.

Section Text.

(** The platform, the two library functions [text] relies on
    ([QString::contains] with [Qt::CaseInsensitive], and the translated
    ["%1 panel"] with its argument filled in), the wrapped item with its
    address, and the controller the wrapper reaches, if any. *)
Context (pf : Platform)
        (containsCaseInsensitive : string → string → bool)
        (panelLabel : string → string)
        (p : IAccessiblePtr) (item : IAccessible.t)
        (controller : option ControllerView).

Definition announcement : string :=
  match controller with
  | Some c =>
      if decide (Some p = cv_lastFocused c) then cv_announcement c
      else EmptyString
  | None => EmptyString
  end.

Definition description : string :=
  let desc := IAccessible.accessibleDescription item in
  if isEmpty desc
     || containsCaseInsensitive (IAccessible.accessibleName item) desc
  then EmptyString
  else desc.

(** The [case QAccessible::Name] of [text]. *)
Definition text_Name : string :=
  let ann := announcement in
  if negb (isEmpty ann) then ann
  else
    let name := IAccessible.accessibleName item in
    let name :=
      if decide (pf = MacOS) then
        let desc := description in
        if negb (isEmpty desc) then (name +:+ ", " +:+ desc)%string else name
      else name in
    match controller with
    | Some c =>
        if bool_decide (Some p = cv_lastFocused c) && cv_needToVoicePanelInfo c
        then
          let panelName := cv_currentPanelAccessibleName c in
          if negb (isEmpty panelName)
          then (panelLabel panelName +:+ ", " +:+ name)%string
          else name
        else name
    | None => name
    end.

(** The second [case]: [Accelerator] on Windows, [Description] elsewhere,
    and compiled out on macOS. *)
Definition text_Description : string :=
  if negb (isEmpty announcement) then EmptyString else description.

Definition text (textType : QAccessible.Text) : string :=
  match textType with
  | QAccessible.Name => text_Name
  | QAccessible.Accelerator =>
      if decide (pf = Windows) then text_Description else EmptyString
  | QAccessible.Description =>
      if decide (pf = OtherOS) then text_Description else EmptyString
  | _ => EmptyString
  end.

End Text.

End ItemInterface.

(** ** The speech repeater, continued (accessibilityrepeater.cpp) *)

Module RepeaterSpeech.

(** [speak]: the calls made to the engine [m_speech] (present or null)
    whose [state()] is [st]. *)
Definition speak (m_speech : bool) (st : TtsState) (text : string) : list Effect :=
  if negb m_speech then []
  else if decide (st = TtsError) then []
  else (if decide (st = TtsSpeaking) then [TtsStop] else []) ++ [TtsSay text].

Definition repeatCurrentElement (E : Env) (s : AccessibilityController.Controller)
  (m_speech : bool) (st : TtsState) : list Effect :=
  let info := AccessibilityRepeater.getCurrentElementInfo E s in
  if negb (isEmpty info) then speak m_speech st info else [].

End RepeaterSpeech.

(** ** The score element, continued (accessible_score_element.h) *)

Module ScoreElementState.

Import AccessibleScoreElement.

Definition updateFromSelection (elem : option nat) (e : ScoreElement) : ScoreElement :=
  {| m_elem := elem; m_focused := m_focused e; m_selected := m_selected e |}.

(** [setState]: the new element and what it sends on [m_stateChanged]. *)
Definition setState (st : IAccessible.State) (arg : bool) (e : ScoreElement)
  : ScoreElement * list (IAccessible.State * bool) :=
  let '(e, changed) :=
    match st with
    | IAccessible.Focused =>
        if negb (eqb (m_focused e) arg)
        then ({| m_elem := m_elem e; m_focused := arg; m_selected := m_selected e |},
              true)
        else (e, false)
    | IAccessible.Selected =>
        if negb (eqb (m_selected e) arg)
        then ({| m_elem := m_elem e; m_focused := m_focused e; m_selected := arg |},
              true)
        else (e, false)
    | _ => (e, false)
    end in
  if changed then (e, [(st, arg)]) else (e, []).

(** The later revision of the header: no description without an element. *)
Definition buildScreenReaderMain_rev2 (e : ScoreElement) : string :=
  if negb (nonnull (m_elem e)) then EmptyString else "Score element"%string.

Definition buildScreenReaderExtra_rev2 (e : ScoreElement) : string :=
  if negb (nonnull (m_elem e)) then EmptyString else EmptyString.

Definition asIAccessible_rev2 (e : ScoreElement) : IAccessible.t :=
  {| IAccessible.accessibleParent := None;
     IAccessible.accessibleChildCount := 0;
     IAccessible.accessibleChild := λ _, None;
     IAccessible.accessibleRole := IAccessible.ElementOnScore;
     IAccessible.accessibleName := buildScreenReaderMain_rev2 e;
     IAccessible.accessibleDescription := buildScreenReaderExtra_rev2 e;
     IAccessible.accessibleState := accessibleState e;
     IAccessible.accessibleIgnored := negb (nonnull (m_elem e));
     IAccessible.accessibleValue := None;
     IAccessible.accessibleMaximumValue := None;
     IAccessible.accessibleMinimumValue := None;
     IAccessible.accessibleValueStepSize := None;
     IAccessible.accessibleSelection := λ _, (0, 0);
     IAccessible.accessibleSelectionCount := 0;
     IAccessible.accessibleCursorPosition := 0;
     IAccessible.accessibleText := λ _ _, EmptyString;
     IAccessible.accessibleTextBeforeOffset := λ _ _, (EmptyString, 0, 0);
     IAccessible.accessibleTextAfterOffset := λ _ _, (EmptyString, 0, 0);
     IAccessible.accessibleTextAtOffset := λ _ _, (EmptyString, 0, 0);
     IAccessible.accessibleCharacterCount := 0;
     IAccessible.accessibleRowIndex := 0;
     IAccessible.accessibleScreenReaderInfo := buildScreenReaderMain_rev2 e;
     IAccessible.accessibleExtraInfo := buildScreenReaderExtra_rev2 e |}.

End ScoreElementState.

(** ** Event synthesis in the later revision (accessibilitycontroller.cpp) *)

Module PropertyChanged.

Import AccessibilityController.

Inductive Property : Type :=
| Undefined | Parent | Name | Description | Value | TextCursor
| TextInsert | TextRemove.

#[global] Instance Property_eq_dec : EqDecision Property.
Proof. solve_decision. Defined.

(** The [QAccessible::Event] values [propertyChanged] picks from. *)
Inductive EventKind : Type :=
| ParentChanged | NameChanged | DescriptionChanged | AcceleratorChanged.

(** The event objects it builds and hands to [sendEvent]. *)
Inductive SentEvent : Type :=
| PlainEvent (o : option AccessibleObjectPtr) (etype : EventKind)
| ValueChangeEvent (o : option AccessibleObjectPtr) (value : QVariant)
| TextCursorEvent (o : option AccessibleObjectPtr) (position : Z)
| TextInsertEvent (o : option AccessibleObjectPtr) (position : Z) (text : string)
| TextRemoveEvent (o : option AccessibleObjectPtr) (position : Z) (text : string).

(** [IAccessible::TextRange], read from the value of the notification. *)
Record TextRange : Type := { startPosition : Z; endPosition : Z }.

(** The controller together with the member this revision assigns
    besides. *)
Record State : Type := {
  controller : Controller;
  m_needToVoicePanelInfo : bool
}.

Definition needsRevoicing (i : QAccessibleInterfacePtr) (etype : EventKind) : bool :=
  false.

Definition triggerRevoicing (current : Item) : list SentEvent :=
  if negb (nonnull (object current)) then []
  else [PlainEvent (object current) NameChanged].

(** The new state and the events handed to [sendEvent], in order.  The
    entry found is valid, so its item pointer is not null. *)
Definition propertyChanged (pf : Platform) (E : Env) (a : IAccessiblePtr)
  (property : Property) (range : TextRange) (st : State)
  : State * list SentEvent :=
  let s := controller st in
  let it := findItem s (Some a) in
  if negb (isValid it) then (st, [])
  else
    match property with
    | Undefined => (st, [])
    | Parent => (st, [PlainEvent (object it) ParentChanged])
    | Name | Description =>
        let s := if decide (Some a = m_lastFocused s)
                 then set_m_announcement EmptyString s else s in
        let etype :=
          match pf with
          | MacOS => NameChanged
          | Windows =>
              if decide (property = Name) then NameChanged else AcceleratorChanged
          | OtherOS =>
              if decide (property = Name) then NameChanged else DescriptionChanged
          end in
        if match iface it with
           | Some i => needsRevoicing i etype
           | None => false
           end
        then ({| controller := s;
                 m_needToVoicePanelInfo := m_needToVoicePanelInfo st |},
              triggerRevoicing it)
        else ({| controller := s; m_needToVoicePanelInfo := false |},
              [PlainEvent (object it) etype])
    | Value =>
        match item it with
        | Some q =>
            (st, [ValueChangeEvent (object it)
                    (IAccessible.accessibleValue (deref E s q))])
        | None => (st, [])
        end
    | TextCursor =>
        match item it with
        | Some q =>
            (st, [TextCursorEvent (object it)
                    (IAccessible.accessibleCursorPosition (deref E s q))])
        | None => (st, [])
        end
    | TextInsert =>
        match item it with
        | Some q =>
            (st, [TextInsertEvent (object it) (startPosition range)
                    (IAccessible.accessibleText (deref E s q)
                       (startPosition range) (endPosition range))])
        | None => (st, [])
        end
    | TextRemove =>
        match item it with
        | Some q =>
            (st, [TextRemoveEvent (object it) (startPosition range)
                    (IAccessible.accessibleText (deref E s q)
                       (startPosition range) (endPosition range))])
        | None => (st, [])
        end
    end.

End PropertyChanged.

(** ** The action-dispatch hooks of the later revision ([init]) *)

Module DispatchHooks.

Import AccessibilityController.

(** The controller with the two members the hooks use. *)
Record State : Type := {
  controller : Controller;
  m_preDispatchFocus : option IAccessiblePtr;
  m_preDispatchName : string
}.



End DispatchHooks.

(** ** The selection's accessibility bridge (notationselection.cpp) *)

Module NotationSelection.

Import AccessibilityController.

(** The member [m_lastElementHit], the function-static [s_accScoreElem]
    (the address of the shared score element and its fields), the controller
    the service locator resolves, if any, and what the element has sent on
    its state channel. *)
Record State : Type := {
  m_lastElementHit : option nat;
  s_accScoreElem : option (nat * AccessibleScoreElement.ScoreElement);
  accCtrl : option Controller;
  stateChanged : list (IAccessible.State * bool)
}.

(** [fresh] is the address [new] returns when the element is created. *)
Definition onElementHit (E : Env) (fresh : nat) (el : option nat) (st : State)
  : State :=
  match accCtrl st with
  | None =>
      {| m_lastElementHit := el; s_accScoreElem := s_accScoreElem st;
         accCtrl := None; stateChanged := stateChanged st |}
  | Some c =>
      let '(addr, e, c) :=
        match s_accScoreElem st with
        | None =>
            let e := {| AccessibleScoreElement.m_elem := el;
                        AccessibleScoreElement.m_focused := false;
                        AccessibleScoreElement.m_selected := false |} in
            (fresh, e, reg E (Obj fresh) c)
        | Some (addr, e) =>
            (addr, ScoreElementState.updateFromSelection el e, c)
        end in
      let '(e, sent1) := ScoreElementState.setState IAccessible.Focused true e in
      let '(e, sent2) := ScoreElementState.setState IAccessible.Selected true e in
      let c := announce EmptyString c in
      {| m_lastElementHit := el; s_accScoreElem := Some (addr, e);
         accCtrl := Some c;
         stateChanged := stateChanged st ++ sent1 ++ sent2 |}
  end.

End NotationSelection.

(** ** Invariants of the reachable states *)

Module Invariants.

Import AccessibilityController.

#[global] Instance QAccessibleEventType_eq_dec : EqDecision QAccessibleEventType.
Proof. solve_decision. Defined.

#[global] Instance QAccessibleEvent_eq_dec : EqDecision QAccessibleEvent.
Proof. solve_decision. Defined.

(** In a log of outgoing calls, every event handed to the internal channel
    is handed to the platform by the very next call, and the platform gets
    no event otherwise. *)
Fixpoint paired (log : list Effect) : bool :=
  match log with
  | [] => true
  | ChannelSend ev :: rest =>
      match rest with
      | UpdateAccessibility ev' :: rest' => bool_decide (ev = ev') && paired rest'
      | _ => false
      end
  | UpdateAccessibility _ :: _ => false
  | _ :: rest => paired rest
  end.

(** Every wrapper in the table was handed out by the allocator, no two
    entries share one, and the platform handle of an entry is the one the
    platform resolved for its wrapper. *)
Definition wrappers_ok (E : Env) (s : Controller) : Prop :=
  (∀ k it o, m_allItems s !! k = Some it → object it = Some o →
             (o < next_object s)%nat ∧ iface it = queryAccessibleInterface E o)
  ∧ (∀ k1 k2 it1 it2 o,
       m_allItems s !! k1 = Some it1 → m_allItems s !! k2 = Some it2 →
       object it1 = Some o → object it2 = Some o → k1 = k2).

(** The top-level list has no duplicates and holds only registered items
    that report the controller as their parent. *)
Definition children_ok (E : Env) (s : Controller) : Prop :=
  NoDup (m_children s)
  ∧ (∀ x, x ∈ m_children s →
          is_Some (m_allItems s !! x)
          ∧ IAccessible.accessibleParent (deref E s x) = Some This).

(** A step that leaves the registry alone: the table, the allocator and
    the top-level list are kept and the calls it adds are well paired. *)
Definition registry_kept (s s' : Controller) : Prop :=
  m_allItems s' = m_allItems s
  ∧ m_inited s' = m_inited s
  ∧ next_object s' = next_object s
  ∧ m_children s' = m_children s
  ∧ ∃ l, effects s' = effects s ++ l ∧ paired l = true.

(** The calls [sendEvent] makes for one event. *)
Definition sent (o : option AccessibleObjectPtr) (ty : QAccessibleEventType)
  : list Effect :=
  [ChannelSend {| ev_object := o; ev_type := ty |};
   UpdateAccessibility {| ev_object := o; ev_type := ty |}].

End Invariants.

(** * Verified properties *)

Import AccessibilityController.
Import Spec.

(** ** Registration terminates and has a closed form *)

Section Registration.

Context (E : Env).

Lemma init_with_fuel n s :
  m_enabled s = true → m_inited s = true →
  init_with (reg_fuel (S n) E) E s = Some (init_result E s).
Proof.
  intros He Hi. unfold init_with, init_result. simpl.
  unfold reg_with. simpl. rewrite He, Hi. simpl. reflexivity.
Qed.

Lemma reg_fuel_closed n a s :
  reg_fuel (S (S n)) E a s =
  Some (if negb (m_enabled s) then s
        else reg_entry E a (if negb (m_inited s)
                            then init_result E (set_m_inited true s)
                            else s)).
Proof.
  change (reg_fuel (S (S n)) E a s) with (reg_with (reg_fuel (S n) E) E a s).
  unfold reg_with.
  destruct (m_enabled s) eqn:He; cbn [negb]; [|reflexivity].
  destruct (m_inited s) eqn:Hi; cbn [negb]; [reflexivity|].
  rewrite init_with_fuel by (simpl; auto). reflexivity.
Qed.

(** Any fuel of at least two gives the result of [reg]. *)
Lemma reg_fuel_enough n a s : reg_fuel (S (S n)) E a s = Some (reg E a s).
Proof. unfold reg. rewrite !reg_fuel_closed. reflexivity. Qed.

Lemma reg_closed a s :
  reg E a s =
  if negb (m_enabled s) then s
  else reg_entry E a (if negb (m_inited s)
                      then init_result E (set_m_inited true s)
                      else s).
Proof. unfold reg. rewrite reg_fuel_closed. reflexivity. Qed.

End Registration.

(** ** Spoken description *)

Lemma isEmpty_true (x : string) : isEmpty x = true ↔ x = EmptyString.
Proof. destruct x; simpl; split; congruence. Qed.

Lemma nonEmpty_cons (x : string) (l : list string) :
  nonEmpty (x :: l) = if isEmpty x then nonEmpty l else x :: nonEmpty l.
Proof. unfold nonEmpty. simpl. destruct (isEmpty x); reflexivity. Qed.

Lemma buildSpokenDescriptionFor_spec (acc : option IAccessible.t) :
  buildSpokenDescriptionFor acc = spokenDescription acc.
Proof.
  destruct acc as [it|]; [|reflexivity].
  unfold buildSpokenDescriptionFor, spokenDescription.
  rewrite !nonEmpty_cons.
  destruct (decide (IAccessible.accessibleRole it = IAccessible.ElementOnScore))
    as [Hr|Hr].
  - destruct (isEmpty (IAccessible.accessibleScreenReaderInfo it)),
             (isEmpty (IAccessible.accessibleExtraInfo it));
      simpl; try (rewrite bool_decide_eq_true_2 by (split; [exact Hr|discriminate]);
                  reflexivity).
    rewrite (bool_decide_eq_false_2 (_ ∧ _)) by (intros [_ H]; apply H; reflexivity).
    destruct (isEmpty (IAccessible.accessibleName it)),
             (isEmpty (IAccessible.accessibleDescription it)),
             (isEmpty (toString (IAccessible.accessibleValue it)));
      reflexivity.
  - rewrite (bool_decide_eq_false_2 (_ ∧ _)) by (intros [H _]; contradiction).
    destruct (isEmpty (IAccessible.accessibleName it)),
             (isEmpty (IAccessible.accessibleDescription it)),
             (isEmpty (toString (IAccessible.accessibleValue it)));
      reflexivity.
Qed.

Lemma getCurrentElementInfo_build (E : Env) (s : Controller) :
  AccessibilityRepeater.getCurrentElementInfo E s =
  buildSpokenDescriptionFor (deref E s <$> lastFocused s).
Proof.
  unfold AccessibilityRepeater.getCurrentElementInfo.
  destruct (lastFocused s) as [p|]; reflexivity.
Qed.

(** C1. The description built by the speech fallback, in the controller
    ([buildSpokenDescriptionFor]) and in the repeater
    ([getCurrentElementInfo], on the last focused item), is the one the
    specification words: "No element focused" without an item; for a score
    element the non-empty strings among screen-reader info and extra info
    joined with "; "; otherwise, and also for a score element with both
    strings empty, the non-empty parts among name, description and
    "value: " + value joined with ", ", or "Unknown element" when there is
    none. *)
Theorem C1_spoken_description :
  (∀ acc : option IAccessible.t,
     buildSpokenDescriptionFor acc = spokenDescription acc)
  ∧ (∀ (E : Env) (s : Controller),
       AccessibilityRepeater.getCurrentElementInfo E s =
       spokenDescription (deref E s <$> lastFocused s))
  ∧ buildSpokenDescriptionFor None = "No element focused"%string.
Proof.
  split; [exact buildSpokenDescriptionFor_spec|].
  split; [|reflexivity].
  intros E s. rewrite getCurrentElementInfo_build.
  apply buildSpokenDescriptionFor_spec.
Qed.

(** A score element whose five strings are all empty falls through to
    "Unknown element". *)
Lemma unknown_element_when_all_empty (it : IAccessible.t) :
  IAccessible.accessibleScreenReaderInfo it = EmptyString →
  IAccessible.accessibleExtraInfo it = EmptyString →
  IAccessible.accessibleName it = EmptyString →
  IAccessible.accessibleDescription it = EmptyString →
  toString (IAccessible.accessibleValue it) = EmptyString →
  buildSpokenDescriptionFor (Some it) = "Unknown element"%string.
Proof.
  intros H1 H2 H3 H4 H5. unfold buildSpokenDescriptionFor.
  rewrite H1, H2, H3, H4, H5. simpl.
  destruct (decide _); reflexivity.
Qed.

Example spoken_score_element :
  buildSpokenDescriptionFor
    (Some (AccessibleScoreElement.asIAccessible
             {| AccessibleScoreElement.m_elem := Some 7%nat;
                AccessibleScoreElement.m_focused := true;
                AccessibleScoreElement.m_selected := true |}))
  = "Score element"%string.
Proof. reflexivity. Qed.

Example spoken_score_element_fallthrough :
  buildSpokenDescriptionFor
    (Some (Example.plainItem None IAccessible.ElementOnScore "Measure 3" true))
  = "Measure 3"%string.
Proof. reflexivity. Qed.

Example spoken_root :
  buildSpokenDescriptionFor (Some (deref Example.E0 Example.s0 This))
  = "MuseScore"%string.
Proof. reflexivity. Qed.

(** ** The entry table under [reg] and [unreg] *)

(** Opens the bodies of the operations and decides their tests. *)
Ltac open_ops :=
  unfold init_result, reg_entry, triggerRevoicing, sendEvent;
  repeat case_match; simpl in *; try congruence; auto.

Section Table.

Context (E : Env).

Lemma isValid_entry (a : IAccessiblePtr) (it : Item) :
  item it = Some a → nonnull (object it) = true → isValid it = true.
Proof. intros Hi Ho. unfold isValid. rewrite Hi, Ho. reflexivity. Qed.

Lemma isValid_findItem_Some a s :
  isValid (findItem s (Some a)) = true → is_Some (m_allItems s !! a).
Proof.
  simpl. destruct (m_allItems s !! a) as [it|]; [eauto|discriminate].
Qed.

Lemma reg_entry_flags a s :
  m_enabled (reg_entry E a s) = m_enabled s
  ∧ m_inited (reg_entry E a s) = m_inited s.
Proof. split; open_ops. Qed.

Lemma init_result_flags s :
  m_enabled (init_result E s) = m_enabled s
  ∧ m_inited (init_result E s) = m_inited s.
Proof. split; open_ops. Qed.

Lemma reg_entry_found a s :
  isValid (findItem (reg_entry E a s) (Some a)) = true.
Proof.
  unfold reg_entry.
  destruct (isValid (findItem s (Some a))) eqn:Hv; [exact Hv|].
  unfold sendEvent. case_match; simpl; rewrite lookup_insert_eq; reflexivity.
Qed.

Lemma reg_entry_noop a s :
  isValid (findItem s (Some a)) = true → reg_entry E a s = s.
Proof. intros Hv. unfold reg_entry. rewrite Hv. reflexivity. Qed.

(** After [reg] with accessibility enabled the item has a valid entry and
    the controller is initialised. *)
Lemma reg_enabled_post a s :
  m_enabled s = true →
  m_enabled (reg E a s) = true
  ∧ m_inited (reg E a s) = true
  ∧ isValid (findItem (reg E a s) (Some a)) = true.
Proof.
  intros He. rewrite reg_closed, He. cbn [negb].
  destruct (reg_entry_flags a
              (if negb (m_inited s) then init_result E (set_m_inited true s) else s))
    as [H1 H2].
  rewrite H1, H2. split; [|split].
  - destruct (m_inited s); cbn [negb]; [exact He|].
    rewrite (proj1 (init_result_flags _)). exact He.
  - destruct (m_inited s) eqn:Hi; cbn [negb]; [exact Hi|].
    rewrite (proj2 (init_result_flags _)). reflexivity.
  - apply reg_entry_found.
Qed.

Lemma reg_disabled a s : m_enabled s = false → reg E a s = s.
Proof. intros He. rewrite reg_closed, He. reflexivity. Qed.

Lemma reg_idempotent a s : reg E a (reg E a s) = reg E a s.
Proof.
  destruct (m_enabled s) eqn:He.
  - destruct (reg_enabled_post a s He) as (H1 & H2 & H3).
    rewrite (reg_closed E a (reg E a s)), H1, H2. cbn [negb].
    apply reg_entry_noop, H3.
  - rewrite (reg_disabled a s He). apply reg_disabled, He.
Qed.

Lemma wf_found a s :
  wf s → is_Some (m_allItems s !! a) →
  m_inited s = true ∧ isValid (findItem s (Some a)) = true.
Proof.
  intros [Hk Hi] [it Hit]. split.
  - destruct (m_inited s); [reflexivity|].
    rewrite Hi in Hit by reflexivity. rewrite lookup_empty in Hit. discriminate.
  - simpl. rewrite Hit. destruct (Hk _ _ Hit) as [H1 H2].
    eapply isValid_entry; eauto.
Qed.

Lemma reg_registered a s :
  wf s → is_Some (m_allItems s !! a) → reg E a s = s.
Proof.
  intros Hwf Hs. destruct (wf_found a s Hwf Hs) as [Hi Hv].
  rewrite reg_closed, Hi. cbn [negb].
  destruct (m_enabled s); cbn [negb]; [|reflexivity].
  apply reg_entry_noop, Hv.
Qed.

Lemma unreg_allItems a s :
  m_allItems (unreg (Some a) s) = delete a (m_allItems s).
Proof. unfold unreg. open_ops. Qed.

(** *** The invariant is established by the constructor and kept by
    every operation *)

Lemma wf_constructed hotkey : wf (constructed hotkey).
Proof.
  split; [|reflexivity]. intros k it H. simpl in H.
  rewrite lookup_empty in H. discriminate.
Qed.

Lemma wf_reg_entry a s :
  m_inited s = true → wf s → wf (reg_entry E a s).
Proof.
  intros Hi [Hk _]. split.
  - intros k it. unfold reg_entry, sendEvent.
    destruct (isValid (findItem s (Some a))); [apply Hk|].
    case_match; simpl; intros Hlk;
      (destruct (decide (a = k)) as [->|Hne];
       [rewrite lookup_insert_eq in Hlk; inversion Hlk; subst; simpl; auto
       |rewrite lookup_insert_ne in Hlk by exact Hne; eapply Hk; eauto]).
  - rewrite (proj2 (reg_entry_flags a s)), Hi. discriminate.
Qed.

Lemma wf_same_table s s' :
  m_allItems s' = m_allItems s → (m_inited s = true → m_inited s' = true) →
  wf s → wf s'.
Proof.
  intros Ht Hi [Hk He]. split.
  - rewrite Ht. exact Hk.
  - intros Hf. rewrite Ht. apply He.
    destruct (m_inited s); [rewrite Hi in Hf by reflexivity; discriminate|reflexivity].
Qed.

Lemma wf_init_result s : m_inited s = true → wf s → wf (init_result E s).
Proof.
  intros Hi Hwf.
  assert (Hr : wf (reg_entry E This (emit InstallFactory s))).
  { apply wf_reg_entry; [exact Hi|].
    eapply wf_same_table; [| |exact Hwf]; auto. }
  eapply wf_same_table; [| |exact Hr].
  - unfold init_result. repeat case_match; reflexivity.
  - unfold init_result. repeat case_match; simpl; auto.
Qed.

Lemma wf_set_inited s : m_allItems s = ∅ → wf (set_m_inited true s).
Proof.
  intros He. split; [|discriminate].
  intros k it H. simpl in H. rewrite He, lookup_empty in H. discriminate.
Qed.

Lemma wf_reg a s : wf s → wf (reg E a s).
Proof.
  intros Hwf. rewrite reg_closed.
  destruct (m_enabled s); cbn [negb]; [|exact Hwf].
  destruct (m_inited s) eqn:Hi; cbn [negb].
  - apply wf_reg_entry; auto.
  - apply wf_reg_entry.
    + rewrite (proj2 (init_result_flags _)). reflexivity.
    + apply wf_init_result; [reflexivity|].
      apply wf_set_inited. apply (proj2 Hwf), Hi.
Qed.

Lemma wf_unreg p s : wf s → wf (unreg p s).
Proof.
  intros [Hk He]. destruct p as [a|]; [|split; assumption].
  split.
  - rewrite unreg_allItems. intros k it H.
    apply lookup_delete_Some in H. destruct H as [_ H]. eapply Hk; eauto.
  - intros Hf. rewrite unreg_allItems.
    replace (m_allItems s) with (∅ : gmap IAccessiblePtr Item).
    + apply delete_empty.
    + symmetry. apply He. revert Hf. unfold unreg. open_ops.
Qed.

End Table.

(** ** Every reachable state satisfies the invariant *)

Section Reachable.

Context (E : Env).

Lemma wf_registered (a : IAccessiblePtr) (s : Controller) :
  wf s → is_Some (m_allItems s !! a) → registered s a.
Proof.
  intros [Hk _] [it Hit]. exists it.
  destruct (Hk _ _ Hit) as [H1 H2]. auto.
Qed.

(** What [reg] leaves is a registered item in the sense of [registered]. *)
Lemma reg_registers (a : IAccessiblePtr) (s : Controller) :
  wf s → m_enabled s = true → registered (reg E a s) a.
Proof.
  intros Hwf He. apply wf_registered; [apply wf_reg, Hwf|].
  apply isValid_findItem_Some.
  apply (reg_enabled_post E a s He).
Qed.

Lemma announce_table (text : string) (s : Controller) :
  m_allItems (announce text s) = m_allItems s
  ∧ m_inited (announce text s) = m_inited s.
Proof.
  unfold announce, triggerRevoicing, sendEvent, needsRevoicing.
  destruct (_ || _); [split; reflexivity|].
  destruct (negb _); [split; reflexivity|].
  destruct (iface _); split; reflexivity.
Qed.

Lemma setExternalFocus_table (other : Item) (s : Controller) :
  m_allItems (setExternalFocus E other s) = m_allItems s
  ∧ m_inited (setExternalFocus E other s) = m_inited s.
Proof. unfold setExternalFocus. destruct (negb _); split; reflexivity. Qed.

Lemma restoreFocus_table (s : Controller) :
  m_allItems (restoreFocus E s) = m_allItems s
  ∧ m_inited (restoreFocus E s) = m_inited s.
Proof.
  unfold restoreFocus.
  destruct (negb (nonnull _)); [split; reflexivity|].
  destruct (negb (isUsable _ _ _)); [split; reflexivity|].
  simpl. apply setExternalFocus_table.
Qed.

Lemma repeatCurrentElementInfo_table (s : Controller) :
  m_allItems (repeatCurrentElementInfo E s) = m_allItems s
  ∧ m_inited (repeatCurrentElementInfo E s) = m_inited s.
Proof.
  unfold repeatCurrentElementInfo.
  destruct (negb (m_textToSpeech s)); [split; reflexivity|].
  destruct (decide (tts_state E = TtsSpeaking)); split; reflexivity.
Qed.

Lemma eventFilter_table (event : option QKeyEvent) (s : Controller) :
  m_allItems (eventFilter E event s).2 = m_allItems s
  ∧ m_inited (eventFilter E event s).2 = m_inited s.
Proof.
  unfold eventFilter.
  destruct event as [ke|]; [|split; reflexivity].
  destruct (negb _); [split; reflexivity|].
  destruct (decide _); [|split; reflexivity].
  destruct (_ && _); [|split; reflexivity].
  apply repeatCurrentElementInfo_table.
Qed.

Lemma repeatCurrentElementInfo_rev2_table (s : Controller) :
  m_allItems (repeatCurrentElementInfo_rev2 E s) = m_allItems s
  ∧ m_inited (repeatCurrentElementInfo_rev2 E s) = m_inited s.
Proof.
  unfold repeatCurrentElementInfo_rev2.
  destruct (negb (m_textToSpeech s)); [split; reflexivity|].
  destruct (decide (tts_state E = TtsSpeaking)); split; reflexivity.
Qed.

Lemma eventFilter_rev2_table (event : option QKeyEvent) (s : Controller) :
  m_allItems (eventFilter_rev2 E event s).2 = m_allItems s
  ∧ m_inited (eventFilter_rev2 E event s).2 = m_inited s.
Proof.
  unfold eventFilter_rev2.
  destruct event as [ke|]; [|split; reflexivity].
  destruct (negb _); [split; reflexivity|].
  destruct (decide _); [|split; reflexivity].
  destruct (_ && _); [|split; reflexivity].
  apply repeatCurrentElementInfo_rev2_table.
Qed.

Lemma reachable_wf (s : Controller) : reachable E s → wf s.
Proof.
  induction 1 as [hotkey|b s _ IH|a s _ IH|p s _ IH|text s _ IH|other s _ IH
                 |s _ IH|s _ IH|event s _ IH|s _ IH|event s _ IH].
  - apply wf_constructed.
  - exact IH.
  - apply wf_reg, IH.
  - apply wf_unreg, IH.
  - destruct (announce_table text s) as [H1 H2].
    eapply wf_same_table; [exact H1|rewrite H2; auto|exact IH].
  - destruct (setExternalFocus_table other s) as [H1 H2].
    eapply wf_same_table; [exact H1|rewrite H2; auto|exact IH].
  - destruct (restoreFocus_table s) as [H1 H2].
    eapply wf_same_table; [exact H1|rewrite H2; auto|exact IH].
  - destruct (repeatCurrentElementInfo_table s) as [H1 H2].
    eapply wf_same_table; [exact H1|rewrite H2; auto|exact IH].
  - destruct (eventFilter_table event s) as [H1 H2].
    eapply wf_same_table; [exact H1|rewrite H2; auto|exact IH].
  - destruct (repeatCurrentElementInfo_rev2_table s) as [H1 H2].
    eapply wf_same_table; [exact H1|rewrite H2; auto|exact IH].
  - destruct (eventFilter_rev2_table event s) as [H1 H2].
    eapply wf_same_table; [exact H1|rewrite H2; auto|exact IH].
Qed.

End Reachable.

(** ** Registry claims *)

(** C2. For every item, [reg] followed by [unreg] leaves the entry table
    without an entry for the item, and [findItem] then returns the invalid
    sentinel, whose item and wrapper are both null. *)
Theorem C2_reg_unreg_findItem (E : Env) (s : Controller) (a : IAccessiblePtr) :
  let s' := unreg (Some a) (reg E a s) in
  m_allItems s' !! a = None
  ∧ findItem s' (Some a) = invalid
  ∧ item (findItem s' (Some a)) = None
  ∧ object (findItem s' (Some a)) = None
  ∧ isValid (findItem s' (Some a)) = false.
Proof.
  intros s'.
  assert (Hn : m_allItems s' !! a = None).
  { unfold s'. rewrite unreg_allItems. apply lookup_delete_eq. }
  assert (Hf : findItem s' (Some a) = invalid).
  { simpl. rewrite Hn. reflexivity. }
  rewrite Hf. repeat split; auto.
Qed.

(** The registration in C2 is a real one: the entry is there in between. *)
Example reg_then_unreg_example :
  isValid (findItem Example.s1 (Some (Obj 1))) = true
  ∧ isValid (findItem (unreg (Some (Obj 1)) Example.s1) (Some (Obj 1))) = false.
Proof. split; vm_compute; reflexivity. Qed.

(** C3. [reg] changes nothing when accessibility is disabled, and nothing
    when the item already has an entry (on a table that satisfies the
    invariant [wf]): the whole state, hence the entry table with its size
    and the top-level children list, is the one before the call.  In
    particular a second [reg] of the same item changes nothing, from any
    state. *)
Theorem C3_reg_noop (E : Env) (s : Controller) (a : IAccessiblePtr) :
  (m_enabled s = false → reg E a s = s)
  ∧ (wf s → is_Some (m_allItems s !! a) → reg E a s = s)
  ∧ reg E a (reg E a s) = reg E a s
  ∧ size (m_allItems (reg E a (reg E a s))) = size (m_allItems (reg E a s))
  ∧ m_children (reg E a (reg E a s)) = m_children (reg E a s).
Proof.
  split; [apply reg_disabled|].
  split; [apply reg_registered|].
  rewrite reg_idempotent. auto.
Qed.

Lemma C3_reg_noop_witness :
  reg Example.E0 (Obj 1) (setAccessibilityEnabled false Example.s0)
  = setAccessibilityEnabled false Example.s0
  ∧ reg Example.E0 (Obj 1) Example.s1 = Example.s1.
Proof.
  split.
  - apply (proj1 (C3_reg_noop Example.E0
                    (setAccessibilityEnabled false Example.s0) (Obj 1))).
    reflexivity.
  - apply (proj1 (proj2 (C3_reg_noop Example.E0 Example.s1 (Obj 1)))).
    + apply wf_reg, wf_constructed.
    + vm_compute. eexists. reflexivity.
Defined.

(** ** Announcements *)

(** C4. [announce] with an empty text, or while no item is focused, sends
    no accessibility event, neither to the internal channel nor to the
    platform: it only stores the pending announcement. *)
Theorem C4_announce_silent (text : string) (s : Controller) :
  isEmpty text = true ∨ m_lastFocused s = None →
  announce text s = set_m_announcement text s
  ∧ effects (announce text s) = effects s
  ∧ accessibilityEvents (announce text s) = accessibilityEvents s
  ∧ m_announcement (announce text s) = text.
Proof.
  intros H.
  assert (Ha : announce text s = set_m_announcement text s).
  { unfold announce. simpl. destruct H as [H|H]; rewrite H.
    - rewrite orb_true_r. reflexivity.
    - reflexivity. }
  rewrite Ha. unfold accessibilityEvents. simpl. auto.
Qed.

Lemma C4_announce_silent_witness :
  effects (announce "" Example.s1_focused) = effects Example.s1_focused
  ∧ effects (announce "Voice 1 selected" Example.s1) = effects Example.s1.
Proof.
  split.
  - apply (C4_announce_silent "" Example.s1_focused). left. reflexivity.
  - apply (C4_announce_silent "Voice 1 selected" Example.s1). right. reflexivity.
Defined.

(** With a text and a focused, registered item the event is sent to both
    sinks, the channel first. *)
Example announce_emits :
  effects (announce "Voice 1 selected" Example.s1_focused)
  = effects Example.s1_focused
    ++ [ChannelSend {| ev_object := Some 1%nat; ev_type := NameChanged |};
        UpdateAccessibility {| ev_object := Some 1%nat; ev_type := NameChanged |}].
Proof. vm_compute. reflexivity. Qed.

(** ** Focus back-references *)

(** C5. [unreg] of a registered item clears the focus back-references to
    it: afterwards neither [m_lastFocused] nor [m_pretendFocus] points at
    the item; each of them is cleared when it did and kept otherwise.
    Focus restoration is not run: [m_lastFocused] is not redirected to the
    pretend-focus target, a [restoreFocus] that a pending timer runs later
    finds nothing to restore, and the only outgoing calls are the
    destruction event, to both sinks, and the disposal of the wrapper. *)
Theorem C5_unreg_clears_focus (s : Controller) (a : IAccessiblePtr) :
  registered s a →
  let s' := unreg (Some a) s in
  m_lastFocused s' = (if decide (m_lastFocused s = Some a) then None
                      else m_lastFocused s)
  ∧ m_pretendFocus s' = (if decide (m_pretendFocus s = Some a) then None
                         else m_pretendFocus s)
  ∧ m_lastFocused s' ≠ Some a
  ∧ m_pretendFocus s' ≠ Some a
  ∧ (m_pretendFocus s = Some a → ∀ E : Env, restoreFocus E s' = s')
  ∧ (∃ o, effects s' =
          effects s ++ [ChannelSend {| ev_object := o; ev_type := ObjectDestroyed |};
                        UpdateAccessibility {| ev_object := o; ev_type := ObjectDestroyed |};
                        DeleteObject o]).
Proof.
  intros (it & Hit & Hi & Ho) s'.
  assert (Hv : isValid it = true) by (eapply isValid_entry; eauto).
  assert (H1 : m_lastFocused s' = if decide (m_lastFocused s = Some a) then None
                                  else m_lastFocused s).
  { unfold s', unreg. rewrite Hit. simpl. rewrite Hv, Hi. simpl.
    repeat (first [case_decide | case_bool_decide]; simpl in * );
      congruence. }
  assert (H2 : m_pretendFocus s' = if decide (m_pretendFocus s = Some a) then None
                                   else m_pretendFocus s).
  { unfold s', unreg. rewrite Hit. simpl. rewrite Hv, Hi. simpl.
    repeat (first [case_decide | case_bool_decide]; simpl in * );
      congruence. }
  split; [exact H1|]. split; [exact H2|].
  split.
  { rewrite H1. destruct (decide (m_lastFocused s = Some a)); congruence. }
  split.
  { rewrite H2. destruct (decide (m_pretendFocus s = Some a)); congruence. }
  split.
  { intros Hp E. unfold restoreFocus. rewrite H2.
    destruct (decide (m_pretendFocus s = Some a)); [reflexivity|contradiction]. }
  exists (object it). clear H1 H2.
  unfold s', unreg. rewrite Hit. simpl. rewrite Hv. simpl.
  unfold sendEvent.
  repeat (first [case_decide | case_bool_decide]; simpl);
    rewrite <- !app_assoc; reflexivity.
Qed.

Lemma C5_unreg_clears_focus_witness :
  registered Example.s1_focused (Obj 1)
  ∧ m_lastFocused (unreg (Some (Obj 1)) Example.s1_focused) = None
  ∧ m_pretendFocus (unreg (Some (Obj 1)) Example.s1_focused) = None.
Proof.
  assert (Hr : registered Example.s1_focused (Obj 1)).
  { eexists. vm_compute. repeat split; reflexivity. }
  split; [exact Hr|].
  destruct (C5_unreg_clears_focus Example.s1_focused (Obj 1) Hr)
    as (H1 & H2 & _).
  split; [exact H1 | exact H2].
Defined.

(** ** Platform state of a wrapped item *)

(** C6. For a wrapped item whose Enabled state is false, [state()] reports
    the disabled and the invisible flag and no other one, whatever the role
    of the item is. *)
Theorem C6_disabled_state (it : IAccessible.t) :
  IAccessible.accessibleState it IAccessible.Enabled = false →
  AccessibleItemInterface.state it =
  {| AccessibleItemInterface.disabled := true;
     AccessibleItemInterface.invisible := true;
     AccessibleItemInterface.invalid := false;
     AccessibleItemInterface.active := false;
     AccessibleItemInterface.focusable := false;
     AccessibleItemInterface.focused := false;
     AccessibleItemInterface.checkable := false;
     AccessibleItemInterface.checked := false;
     AccessibleItemInterface.selectable := false;
     AccessibleItemInterface.selected := false |}.
Proof.
  intros H. unfold AccessibleItemInterface.state. rewrite H. reflexivity.
Qed.

Lemma C6_disabled_state_witness :
  IAccessible.accessibleState (app Example.E0 3) IAccessible.Enabled = false
  ∧ AccessibleItemInterface.disabled
      (AccessibleItemInterface.state (app Example.E0 3)) = true
  ∧ AccessibleItemInterface.focusable
      (AccessibleItemInterface.state (app Example.E0 3)) = false.
Proof.
  split; [reflexivity|].
  rewrite (C6_disabled_state (app Example.E0 3) eq_refl).
  split; reflexivity.
Defined.

(** An enabled button, for comparison, is focusable. *)
Example enabled_button_state :
  AccessibleItemInterface.focusable
    (AccessibleItemInterface.state (app Example.E0 2)) = true
  ∧ AccessibleItemInterface.disabled
      (AccessibleItemInterface.state (app Example.E0 2)) = false.
Proof. split; reflexivity. Qed.

(** ** The root item *)

(** The name the root reports is not "application". *)
Lemma C7_root_name_counterexample :
  IAccessible.accessibleName (deref Example.E0 Example.s0 This)
  ≠ "application"%string.
Proof. discriminate. Qed.

Lemma static_cast_int_small (i : Z) :
  0 <= i < 2 ^ 31 → static_cast_int i = i.
Proof.
  intros H. unfold static_cast_int.
  rewrite Z.mod_small by lia. lia.
Qed.

Lemma accessibleChild_in_range (s : Controller) (n : nat) :
  Z.of_nat n < 2 ^ 31 →
  accessibleChild s (Z.of_nat n) = m_children s !! n.
Proof.
  intros Hn. unfold accessibleChild.
  destruct (Z.geb_spec (Z.of_nat n) (Z.of_nat (length (m_children s)))) as [Hge|Hlt].
  - symmetry. apply lookup_ge_None. lia.
  - rewrite static_cast_int_small by lia.
    destruct (Z.ltb_spec (Z.of_nat n) 0) as [?|_]; [lia|].
    rewrite Nat2Z.id. reflexivity.
Qed.

(** C7, amended. The controller implements the capability for the root
    with the fixed name "MuseScore", the role Application, no parent, the
    top-level list as its children, and empty or zero answers to every
    value and text operation. *)
Theorem C7_root_item (E : Env) (s : Controller) :
  let root := deref E s This in
  IAccessible.accessibleName root = "MuseScore"%string
  ∧ IAccessible.accessibleRole root = IAccessible.Application
  ∧ IAccessible.accessibleParent root = None
  ∧ IAccessible.accessibleChildCount root = Z.of_nat (length (m_children s))
  ∧ (∀ n : nat, Z.of_nat n < 2 ^ 31 →
       IAccessible.accessibleChild root (Z.of_nat n) = m_children s !! n)
  ∧ IAccessible.accessibleDescription root = EmptyString
  ∧ IAccessible.accessibleValue root = None
  ∧ IAccessible.accessibleMaximumValue root = None
  ∧ IAccessible.accessibleMinimumValue root = None
  ∧ IAccessible.accessibleValueStepSize root = None
  ∧ toString (IAccessible.accessibleValue root) = EmptyString
  ∧ (∀ i, IAccessible.accessibleSelection root i = (0, 0))
  ∧ IAccessible.accessibleSelectionCount root = 0
  ∧ IAccessible.accessibleCursorPosition root = 0
  ∧ (∀ i j, IAccessible.accessibleText root i j = EmptyString)
  ∧ (∀ i b, IAccessible.accessibleTextBeforeOffset root i b = (EmptyString, 0, 0))
  ∧ (∀ i b, IAccessible.accessibleTextAfterOffset root i b = (EmptyString, 0, 0))
  ∧ (∀ i b, IAccessible.accessibleTextAtOffset root i b = (EmptyString, 0, 0))
  ∧ IAccessible.accessibleCharacterCount root = 0
  ∧ IAccessible.accessibleRowIndex root = 0.
Proof.
  simpl. repeat split; try reflexivity.
  intros n Hn. apply accessibleChild_in_range, Hn.
Qed.

Lemma C7_root_item_witness :
  Z.of_nat 0 < 2 ^ 31
  ∧ IAccessible.accessibleChild (deref Example.E0 Example.s1 This) (Z.of_nat 0)
    = Some (Obj 1).
Proof.
  split; [reflexivity|].
  destruct (C7_root_item Example.E0 Example.s1) as (_ & _ & _ & _ & H & _).
  rewrite (H O eq_refl). vm_compute. reflexivity.
Defined.

(** C10. For every index at or beyond the child count of the root,
    [accessibleChild] returns null: the list is not indexed out of bounds. *)
Theorem C10_accessibleChild_out_of_range (s : Controller) (i : Z) :
  accessibleChildCount s <= i → accessibleChild s i = None.
Proof.
  intros H. unfold accessibleChild, accessibleChildCount in *.
  destruct (Z.geb_spec i (Z.of_nat (length (m_children s)))) as [_|Hlt];
    [reflexivity|lia].
Qed.

Lemma C10_accessibleChild_out_of_range_witness :
  accessibleChildCount Example.s1 <= 1
  ∧ accessibleChild Example.s1 1 = None
  ∧ accessibleChild Example.s1 (2 ^ 64 - 1) = None.
Proof.
  assert (H1 : accessibleChildCount Example.s1 <= 1) by (vm_compute; discriminate).
  assert (H2 : accessibleChildCount Example.s1 <= 2 ^ 64 - 1)
    by (vm_compute; discriminate).
  split; [exact H1|].
  split.
  - exact (C10_accessibleChild_out_of_range Example.s1 1 H1).
  - exact (C10_accessibleChild_out_of_range Example.s1 (2 ^ 64 - 1) H2).
Defined.

(** Inside the range the child is the list element. *)
Example accessibleChild_first :
  accessibleChild Example.s1 0 = Some (Obj 1).
Proof. vm_compute. reflexivity. Qed.

(** ** The repeat hotkey *)

(** No member function assigns the hotkey switch or the engine pointer. *)
Lemma repeatCurrentElementInfo_switches (E : Env) (s : Controller) :
  m_repeatHotkeyEnabled (repeatCurrentElementInfo E s) = m_repeatHotkeyEnabled s
  ∧ m_textToSpeech (repeatCurrentElementInfo E s) = m_textToSpeech s.
Proof.
  unfold repeatCurrentElementInfo.
  destruct (negb (m_textToSpeech s)); [split; reflexivity|].
  destruct (decide (tts_state E = TtsSpeaking)); split; reflexivity.
Qed.

Lemma reg_entry_switches (E : Env) (a : IAccessiblePtr) (s : Controller) :
  m_repeatHotkeyEnabled (reg_entry E a s) = m_repeatHotkeyEnabled s
  ∧ m_textToSpeech (reg_entry E a s) = m_textToSpeech s.
Proof.
  unfold reg_entry, sendEvent.
  destruct (isValid (findItem s (Some a))); [split; reflexivity|].
  destruct (decide _); split; reflexivity.
Qed.

Lemma init_result_switches (E : Env) (s : Controller) :
  m_repeatHotkeyEnabled (init_result E s) = m_repeatHotkeyEnabled s
  ∧ m_textToSpeech (init_result E s) = m_textToSpeech s.
Proof.
  unfold init_result.
  destruct (reg_entry_switches E This (emit InstallFactory s)) as [H1 H2].
  destruct (qApp E && _); simpl; rewrite H1, H2; split; reflexivity.
Qed.

Lemma reg_switches (E : Env) (a : IAccessiblePtr) (s : Controller) :
  m_repeatHotkeyEnabled (reg E a s) = m_repeatHotkeyEnabled s
  ∧ m_textToSpeech (reg E a s) = m_textToSpeech s.
Proof.
  rewrite reg_closed.
  destruct (m_enabled s); cbn [negb]; [|split; reflexivity].
  destruct (reg_entry_switches E a
              (if negb (m_inited s) then init_result E (set_m_inited true s) else s))
    as [H1 H2].
  rewrite H1, H2.
  destruct (m_inited s); cbn [negb]; [split; reflexivity|].
  destruct (init_result_switches E (set_m_inited true s)) as [H3 H4].
  rewrite H3, H4. split; reflexivity.
Qed.

Lemma unreg_switches (p : option IAccessiblePtr) (s : Controller) :
  m_repeatHotkeyEnabled (unreg p s) = m_repeatHotkeyEnabled s
  ∧ m_textToSpeech (unreg p s) = m_textToSpeech s.
Proof.
  destruct p as [a|]; [|split; reflexivity].
  unfold unreg, sendEvent.
  destruct (negb _); [split; reflexivity|].
  repeat (first [case_decide | case_bool_decide]; simpl); split; reflexivity.
Qed.

Lemma announce_switches (text : string) (s : Controller) :
  m_repeatHotkeyEnabled (announce text s) = m_repeatHotkeyEnabled s
  ∧ m_textToSpeech (announce text s) = m_textToSpeech s.
Proof.
  unfold announce, triggerRevoicing, sendEvent, needsRevoicing.
  destruct (_ || _); [split; reflexivity|].
  destruct (negb _); [split; reflexivity|].
  destruct (iface _); split; reflexivity.
Qed.

Lemma setExternalFocus_switches (E : Env) (other : Item) (s : Controller) :
  m_repeatHotkeyEnabled (setExternalFocus E other s) = m_repeatHotkeyEnabled s
  ∧ m_textToSpeech (setExternalFocus E other s) = m_textToSpeech s.
Proof.
  unfold setExternalFocus. destruct (negb _); split; reflexivity.
Qed.

Lemma restoreFocus_switches (E : Env) (s : Controller) :
  m_repeatHotkeyEnabled (restoreFocus E s) = m_repeatHotkeyEnabled s
  ∧ m_textToSpeech (restoreFocus E s) = m_textToSpeech s.
Proof.
  unfold restoreFocus.
  destruct (negb (nonnull _)); [split; reflexivity|].
  destruct (negb (isUsable _ _ _)); [split; reflexivity|].
  simpl. apply setExternalFocus_switches.
Qed.

Lemma eventFilter_switches (E : Env) (event : option QKeyEvent) (s : Controller) :
  m_repeatHotkeyEnabled (eventFilter E event s).2 = m_repeatHotkeyEnabled s
  ∧ m_textToSpeech (eventFilter E event s).2 = m_textToSpeech s.
Proof.
  unfold eventFilter.
  destruct event as [ke|]; [|split; reflexivity].
  destruct (negb _); [split; reflexivity|].
  destruct (decide _); [|split; reflexivity].
  destruct (_ && _); [|split; reflexivity].
  apply repeatCurrentElementInfo_switches.
Qed.

Lemma repeatCurrentElementInfo_rev2_switches (E : Env) (s : Controller) :
  m_repeatHotkeyEnabled (repeatCurrentElementInfo_rev2 E s) = m_repeatHotkeyEnabled s
  ∧ m_textToSpeech (repeatCurrentElementInfo_rev2 E s) = m_textToSpeech s.
Proof.
  unfold repeatCurrentElementInfo_rev2.
  destruct (negb (m_textToSpeech s)); [split; reflexivity|].
  destruct (decide (tts_state E = TtsSpeaking)); split; reflexivity.
Qed.

Lemma eventFilter_rev2_switches (E : Env) (event : option QKeyEvent)
  (s : Controller) :
  m_repeatHotkeyEnabled (eventFilter_rev2 E event s).2 = m_repeatHotkeyEnabled s
  ∧ m_textToSpeech (eventFilter_rev2 E event s).2 = m_textToSpeech s.
Proof.
  unfold eventFilter_rev2.
  destruct event as [ke|]; [|split; reflexivity].
  destruct (negb _); [split; reflexivity|].
  destruct (decide _); [|split; reflexivity].
  destruct (_ && _); [|split; reflexivity].
  apply repeatCurrentElementInfo_rev2_switches.
Qed.

(** Hence both keep the value the constructor gave them. *)
Lemma reachable_hotkey_enabled (E : Env) (s : Controller) :
  reachable E s → m_repeatHotkeyEnabled s = true ∧ m_textToSpeech s = true.
Proof.
  induction 1 as [hotkey|b s _ IH|a s _ IH|p s _ IH|text s _ IH|other s _ IH
                 |s _ IH|s _ IH|event s _ IH|s _ IH|event s _ IH];
    try destruct IH as [IH1 IH2].
  - split; reflexivity.
  - split; assumption.
  - destruct (reg_switches E a s) as [-> ->]. auto.
  - destruct (unreg_switches p s) as [-> ->]. auto.
  - destruct (announce_switches text s) as [-> ->]. auto.
  - destruct (setExternalFocus_switches E other s) as [-> ->]. auto.
  - destruct (restoreFocus_switches E s) as [-> ->]. auto.
  - destruct (repeatCurrentElementInfo_switches E s) as [-> ->]. auto.
  - destruct (eventFilter_switches E event s) as [-> ->]. auto.
  - destruct (repeatCurrentElementInfo_rev2_switches E s) as [-> ->]. auto.
  - destruct (eventFilter_rev2_switches E event s) as [-> ->]. auto.
Qed.

Lemma repeatCurrentElementInfo_says (E : Env) (s : Controller) :
  m_textToSpeech s = true →
  ∃ text, last (effects (repeatCurrentElementInfo E s)) = Some (TtsSay text)
          ∧ isEmpty text = false.
Proof.
  intros Ht. unfold repeatCurrentElementInfo. rewrite Ht. cbn [negb].
  match goal with
  | |- context [if isEmpty ?X then _ else ?X] => destruct (isEmpty X) eqn:Hx
  end;
    (eexists; split; [case_decide; simpl; apply last_snoc|]);
    [reflexivity|exact Hx].
Qed.

Lemma repeatCurrentElementInfo_rev2_says (E : Env) (s : Controller) :
  m_textToSpeech s = true →
  ∃ text, last (effects (repeatCurrentElementInfo_rev2 E s)) = Some (TtsSay text)
          ∧ isEmpty text = false.
Proof.
  intros Ht. unfold repeatCurrentElementInfo_rev2. rewrite Ht. cbn [negb].
  match goal with
  | |- context [if isEmpty ?X then _ else ?X] => destruct (isEmpty X) eqn:Hx
  end;
    (eexists; split; [case_decide; simpl; apply last_snoc|]);
    [reflexivity|exact Hx].
Qed.

(** The switch gates the filter: were it off, no event would be handled. *)
Lemma eventFilter_switched_off (E : Env) (event : option QKeyEvent) (s : Controller) :
  m_repeatHotkeyEnabled s = false →
  eventFilter E event s = (false, s) ∧ eventFilter_rev2 E event s = (false, s).
Proof.
  intros H. unfold eventFilter, eventFilter_rev2. rewrite H.
  destruct event; split; reflexivity.
Qed.

(** C8. Of the key presses offered to the global key filter, one that
    carries the auto-repeat flag never starts the repeat-speech action (the
    state, with its log of calls to the speech engine, is unchanged), and
    one with the configured repeat hotkey, without auto-repeat and without
    modifiers, always does, in every state the controller can be in: the
    filter runs [repeatCurrentElementInfo], which hands a non-empty text to
    the engine.  Both revisions of the filter agree on this; they differ in
    whether the event is consumed. *)
Theorem C8_repeat_hotkey (E : Env) (s : Controller) (ke : QKeyEvent) :
  type ke = KeyPress →
  (isAutoRepeat ke = true →
     eventFilter E (Some ke) s = (false, s)
     ∧ eventFilter_rev2 E (Some ke) s = (false, s))
  ∧ (reachable E s →
     isAutoRepeat ke = false →
     key ke = m_repeatHotkey s →
     modifiers ke = NoModifier →
     eventFilter E (Some ke) s = (true, repeatCurrentElementInfo E s)
     ∧ eventFilter_rev2 E (Some ke) s = (false, repeatCurrentElementInfo_rev2 E s)
     ∧ (∃ text, last (effects (eventFilter E (Some ke) s).2) = Some (TtsSay text)
                ∧ isEmpty text = false)
     ∧ (∃ text, last (effects (eventFilter_rev2 E (Some ke) s).2) = Some (TtsSay text)
                ∧ isEmpty text = false)).
Proof.
  intros Hty. split.
  - intros Hrep. unfold eventFilter, eventFilter_rev2. rewrite Hrep.
    cbn [negb andb].
    split; repeat case_match; reflexivity.
  - intros Hr Hrep Hkey Hmod.
    destruct (reachable_hotkey_enabled E s Hr) as [Hen Htts].
    assert (H1 : eventFilter E (Some ke) s = (true, repeatCurrentElementInfo E s)).
    { unfold eventFilter. rewrite Hen, Hrep, Hkey, Hmod, Z.eqb_refl. simpl.
      case_decide; [reflexivity|contradiction]. }
    assert (H2 : eventFilter_rev2 E (Some ke) s
                 = (false, repeatCurrentElementInfo_rev2 E s)).
    { unfold eventFilter_rev2. rewrite Hen, Hrep, Hkey, Hmod, Z.eqb_refl. simpl.
      case_decide; [reflexivity|contradiction]. }
    rewrite H1, H2. simpl.
    split; [reflexivity|]. split; [reflexivity|].
    split; [apply repeatCurrentElementInfo_says|apply repeatCurrentElementInfo_rev2_says];
      exact Htts.
Qed.

Lemma C8_repeat_hotkey_witness :
  (eventFilter Example.E0 (Some Example.hotkeyAutoRepeat) Example.s1
   = (false, Example.s1)
   ∧ eventFilter_rev2 Example.E0 (Some Example.hotkeyAutoRepeat) Example.s1
     = (false, Example.s1))
  ∧ eventFilter Example.E0 (Some Example.hotkeyPress) Example.s1
    = (true, repeatCurrentElementInfo Example.E0 Example.s1).
Proof.
  split.
  - exact (proj1 (C8_repeat_hotkey Example.E0 Example.s1 Example.hotkeyAutoRepeat
                    eq_refl) eq_refl).
  - exact (proj1 (proj2 (C8_repeat_hotkey Example.E0 Example.s1 Example.hotkeyPress
                           eq_refl)
                    (reach_reg Example.E0 (Obj 1) Example.s0
                       (reach_constructed Example.E0 Key_F12))
                    eq_refl eq_refl eq_refl)).
Defined.

(** What the engine is told in the example: nothing is focused. *)
Example hotkey_says :
  effects (eventFilter Example.E0 (Some Example.hotkeyPress) Example.s0).2
  = [TtsSay "No element focused"].
Proof. vm_compute. reflexivity. Qed.

(** ** The top-level children list *)

Section TopLevel.

Context (E : Env).

(** The parent an item reports does not depend on the controller. *)
Lemma parent_state_independent (a : IAccessiblePtr) (s s' : Controller) :
  IAccessible.accessibleParent (deref E s a)
  = IAccessible.accessibleParent (deref E s' a).
Proof. destruct a; reflexivity. Qed.

Lemma reg_entry_children a s :
  m_children (reg_entry E a s) =
  m_children s ++
  (if isValid (findItem s (Some a)) then []
   else if decide (IAccessible.accessibleParent (deref E s a) = Some This)
        then [a] else []).
Proof.
  unfold reg_entry, sendEvent.
  destruct (isValid (findItem s (Some a))); [symmetry; apply app_nil_r|].
  rewrite (parent_state_independent a _ s).
  destruct (decide _); simpl; [reflexivity|symmetry; apply app_nil_r].
Qed.

Lemma reg_entry_lookup a s y :
  is_Some (m_allItems (reg_entry E a s) !! y)
  ↔ y = a ∨ is_Some (m_allItems s !! y).
Proof.
  unfold reg_entry, sendEvent.
  destruct (isValid (findItem s (Some a))) eqn:Hv.
  - split; [auto|]. intros [->|H]; [apply isValid_findItem_Some, Hv|exact H].
  - destruct (decide _); simpl; rewrite lookup_insert_is_Some; split.
    all: intros [H|H]; auto; try (destruct H; auto).
    all: destruct (decide (a = y)); auto.
Qed.

Lemma init_result_children s : m_children (init_result E s) = m_children s.
Proof.
  assert (H : m_children (reg_entry E This (emit InstallFactory s)) = m_children s).
  { rewrite reg_entry_children. simpl.
    destruct (isValid _); apply app_nil_r. }
  unfold init_result. destruct (qApp E && _); simpl; exact H.
Qed.

Lemma init_result_lookup s y :
  is_Some (m_allItems (init_result E s) !! y)
  ↔ y = This ∨ is_Some (m_allItems s !! y).
Proof.
  rewrite <- (reg_entry_lookup This (emit InstallFactory s) y).
  unfold init_result. destruct (qApp E && _); simpl; reflexivity.
Qed.

(** Which keys the table holds after [reg]. *)
Lemma reg_lookup a s y :
  m_enabled s = true →
  is_Some (m_allItems (reg E a s) !! y)
  ↔ y = a ∨ (y = This ∧ m_inited s = false) ∨ is_Some (m_allItems s !! y).
Proof.
  intros He. rewrite reg_closed, He. cbn [negb].
  rewrite reg_entry_lookup.
  destruct (m_inited s); cbn [negb].
  - intuition congruence.
  - rewrite init_result_lookup. simpl. intuition.
Qed.

(** [reg] appends the item to the top-level list exactly when it is not
    registered yet and reports the controller as its parent. *)
Lemma reg_children a s :
  wf s → m_enabled s = true →
  m_children (reg E a s) =
  m_children s ++
  (if decide (is_Some (m_allItems s !! a)) then []
   else if decide (IAccessible.accessibleParent (deref E s a) = Some This)
        then [a] else []).
Proof.
  intros Hwf He. rewrite reg_closed, He. cbn [negb].
  rewrite reg_entry_children.
  destruct (m_inited s) eqn:Hi; cbn [negb].
  - destruct (decide (is_Some (m_allItems s !! a))) as [Hs|Hs].
    + rewrite (proj2 (wf_found a s Hwf Hs)). reflexivity.
    + destruct (isValid (findItem s (Some a))) eqn:Hv; [|reflexivity].
      exfalso. apply Hs, isValid_findItem_Some, Hv.
  - rewrite init_result_children.
    change (m_children (set_m_inited true s)) with (m_children s).
    assert (Hempty : m_allItems s = ∅) by (apply (proj2 Hwf), Hi).
    rewrite (parent_state_independent a (init_result E (set_m_inited true s)) s).
    destruct (decide (is_Some (m_allItems s !! a))) as [Hs|_].
    { rewrite Hempty, lookup_empty in Hs. destruct Hs; discriminate. }
    destruct (isValid (findItem (init_result E (set_m_inited true s)) (Some a)))
      eqn:Hv; [|reflexivity].
    apply isValid_findItem_Some, init_result_lookup in Hv.
    destruct Hv as [->|Hs].
    + simpl. rewrite app_nil_r. reflexivity.
    + simpl in Hs. rewrite Hempty, lookup_empty in Hs. destruct Hs; discriminate.
Qed.

(** An item with another parent never enters the list, in any state. *)
Lemma reg_children_other a s :
  IAccessible.accessibleParent (deref E s a) ≠ Some This →
  m_children (reg E a s) = m_children s.
Proof.
  intros Hp. rewrite reg_closed.
  destruct (m_enabled s); cbn [negb]; [|reflexivity].
  rewrite reg_entry_children.
  rewrite (parent_state_independent a
             (if negb (m_inited s) then init_result E (set_m_inited true s) else s) s).
  destruct (decide (IAccessible.accessibleParent (deref E s a) = Some This));
    [contradiction|].
  replace (if isValid _ then [] else []) with (@nil IAccessiblePtr)
    by (destruct (isValid _); reflexivity).
  rewrite app_nil_r.
  destruct (m_inited s); cbn [negb]; [reflexivity|].
  apply (init_result_children (set_m_inited true s)).
Qed.

Lemma reg_enabled a s : m_enabled (reg E a s) = m_enabled s.
Proof.
  rewrite reg_closed.
  destruct (m_enabled s) eqn:He; cbn [negb]; [|exact He].
  rewrite (proj1 (reg_entry_flags E _ _)).
  destruct (m_inited s); cbn [negb]; [exact He|].
  rewrite (proj1 (init_result_flags E _)). exact He.
Qed.

End TopLevel.

(** C9. Only an item that reports the controller itself as its parent
    enters the top-level list when it is registered.  After the root, then a
    child A of the root, then a child B of A have been registered on a new
    controller, the top-level list is [A] and the root's
    [accessibleChildCount] is 1; the same holds when the root is left to the
    lazy initialisation of the first [reg]. *)
Theorem C9_top_level_children (E : Env) (hotkey : Z) (a b : nat) :
  IAccessible.accessibleParent (app E a) = Some This →
  IAccessible.accessibleParent (app E b) = Some (Obj a) →
  (let s := reg E (Obj b) (reg E (Obj a) (reg E This (constructed hotkey))) in
   m_children s = [Obj a] ∧ accessibleChildCount s = 1)
  ∧ (let s := reg E (Obj b) (reg E (Obj a) (constructed hotkey)) in
     m_children s = [Obj a] ∧ accessibleChildCount s = 1)
  ∧ (∀ (s : Controller) (x : IAccessiblePtr),
       IAccessible.accessibleParent (deref E s x) ≠ Some This →
       m_children (reg E x s) = m_children s).
Proof.
  intros Ha Hb.
  assert (Hgen : ∀ (s : Controller) (x : IAccessiblePtr),
             IAccessible.accessibleParent (deref E s x) ≠ Some This →
             m_children (reg E x s) = m_children s).
  { intros s x Hp. apply reg_children_other, Hp. }
  assert (Hstep : ∀ s0 : Controller,
             wf s0 → m_enabled s0 = true → m_children s0 = [] →
             (∀ y, is_Some (m_allItems s0 !! y) → y = This) →
             let s := reg E (Obj b) (reg E (Obj a) s0) in
             m_children s = [Obj a] ∧ accessibleChildCount s = 1).
  { intros s0 Hwf He Hc Hk s.
    assert (H1 : m_children (reg E (Obj a) s0) = [Obj a]).
    { rewrite reg_children by assumption.
      destruct (decide _) as [Hs|_]; [apply Hk in Hs; discriminate|].
      destruct (decide _) as [_|Hn]; [|simpl in Hn; contradiction].
      rewrite Hc. reflexivity. }
    assert (H2 : m_children s = [Obj a]).
    { unfold s. rewrite Hgen; [exact H1|].
      simpl. rewrite Hb. discriminate. }
    split; [exact H2|]. unfold accessibleChildCount. rewrite H2. reflexivity. }
  split; [|split; [|exact Hgen]].
  - apply Hstep.
    + apply wf_reg, wf_constructed.
    + rewrite reg_enabled. reflexivity.
    + rewrite reg_children by (apply wf_constructed || reflexivity).
      simpl. destruct (decide _); reflexivity.
    + intros y Hy. apply reg_lookup in Hy; [|reflexivity].
      destruct Hy as [->|[[-> _]|Hy]]; [reflexivity|reflexivity|].
      simpl in Hy. rewrite lookup_empty in Hy. destruct Hy; discriminate.
  - apply Hstep.
    + apply wf_constructed.
    + reflexivity.
    + reflexivity.
    + intros y Hy. simpl in Hy. rewrite lookup_empty in Hy.
      destruct Hy; discriminate.
Qed.

Lemma C9_top_level_children_witness :
  IAccessible.accessibleParent (app Example.E0 1) = Some This
  ∧ IAccessible.accessibleParent (app Example.E0 2) = Some (Obj 1)
  ∧ accessibleChildCount
      (reg Example.E0 (Obj 2)
         (reg Example.E0 (Obj 1) (reg Example.E0 This (constructed Key_F12)))) = 1.
Proof.
  split; [reflexivity|]. split; [reflexivity|].
  exact (proj2 (proj1 (C9_top_level_children Example.E0 Key_F12 1 2
                         eq_refl eq_refl))).
Defined.

(** The table in the scenario holds the root, A and B. *)
Example scenario_table :
  let s := reg Example.E0 (Obj 2) (reg Example.E0 (Obj 1) Example.s0) in
  size (m_allItems s) = 3%nat
  ∧ m_children s = [Obj 1]
  ∧ s_rootObject s = Some 0%nat.
Proof. vm_compute. repeat split; reflexivity. Qed.

(** * Further properties of the controller *)

Import Invariants.

(** ** Frames: what each operation leaves alone *)

Section Frames.

Context (E : Env).

Lemma controller_eta (s : Controller) :
  {| m_enabled := m_enabled s; m_inited := m_inited s;
     m_lastFocused := m_lastFocused s; m_announcement := m_announcement s;
     m_children := m_children s; m_allItems := m_allItems s;
     m_pretendFocus := m_pretendFocus s;
     m_repeatHotkeyEnabled := m_repeatHotkeyEnabled s;
     m_repeatHotkey := m_repeatHotkey s; m_textToSpeech := m_textToSpeech s;
     m_keyFilter := m_keyFilter s; s_rootObject := s_rootObject s;
     next_object := next_object s; effects := effects s |} = s.
Proof. destruct s; reflexivity. Qed.

Lemma unreg_absent (a : IAccessiblePtr) (s : Controller) :
  m_allItems s !! a = None → unreg (Some a) s = s.
Proof.
  intros H. unfold unreg. rewrite H. simpl.
  unfold set_m_allItems. rewrite (delete_id _ _ H). apply controller_eta.
Qed.

Lemma unreg_other (a y : IAccessiblePtr) (s : Controller) :
  y ≠ a → m_allItems (unreg (Some a) s) !! y = m_allItems s !! y.
Proof. intros H. rewrite unreg_allItems. apply lookup_delete_ne. auto. Qed.

Lemma reg_entry_other (a y : IAccessiblePtr) (s : Controller) :
  y ≠ a → m_allItems (reg_entry E a s) !! y = m_allItems s !! y.
Proof.
  intros H. unfold reg_entry, sendEvent.
  destruct (isValid _); [reflexivity|].
  destruct (decide _); simpl; apply lookup_insert_ne; auto.
Qed.

Lemma init_result_other (y : IAccessiblePtr) (s : Controller) :
  y ≠ This → m_allItems (init_result E s) !! y = m_allItems s !! y.
Proof.
  intros H.
  transitivity (m_allItems (reg_entry E This (emit InstallFactory s)) !! y).
  - unfold init_result. destruct (qApp E && _); reflexivity.
  - apply (reg_entry_other This y (emit InstallFactory s) H).
Qed.

Lemma reg_other (a y : IAccessiblePtr) (s : Controller) :
  y ≠ a → y ≠ This → m_allItems (reg E a s) !! y = m_allItems s !! y.
Proof.
  intros Ha Ht. rewrite reg_closed.
  destruct (m_enabled s); cbn [negb]; [|reflexivity].
  rewrite reg_entry_other by exact Ha.
  destruct (m_inited s); cbn [negb]; [reflexivity|].
  rewrite init_result_other by exact Ht. reflexivity.
Qed.

End Frames.

(** X1. [unreg] of an item without an entry, and of the null pointer,
    changes nothing at all, so that unregistering twice is the same as
    unregistering once. *)
Theorem X1_unreg_unknown_item (s : Controller) (a : IAccessiblePtr)
  (p : option IAccessiblePtr) :
  (m_allItems s !! a = None → unreg (Some a) s = s)
  ∧ unreg None s = s
  ∧ unreg p (unreg p s) = unreg p s.
Proof.
  split; [apply unreg_absent|]. split; [reflexivity|].
  destruct p as [b|]; [|reflexivity].
  apply unreg_absent. rewrite unreg_allItems. apply lookup_delete_eq.
Qed.

Lemma X1_unreg_unknown_item_witness :
  m_allItems Example.s1 !! Obj 2 = None
  ∧ unreg (Some (Obj 2)) Example.s1 = Example.s1.
Proof.
  assert (H : m_allItems Example.s1 !! Obj 2 = None) by (vm_compute; reflexivity).
  split; [exact H|].
  exact (proj1 (X1_unreg_unknown_item Example.s1 (Obj 2) None) H).
Defined.

(** X2. Registration and unregistration are local: [unreg] of an item
    leaves the entry of every other item as it was, and [reg] leaves the
    entry of every item other than the registered one and the root as it
    was (the root may get its entry from the lazy initialisation). *)
Theorem X2_other_entries_untouched (E : Env) (s : Controller)
  (a y : IAccessiblePtr) :
  y ≠ a →
  m_allItems (unreg (Some a) s) !! y = m_allItems s !! y
  ∧ (y ≠ This → m_allItems (reg E a s) !! y = m_allItems s !! y)
  ∧ (m_inited s = true → m_allItems (reg E a s) !! y = m_allItems s !! y).
Proof.
  intros Hy. split; [apply unreg_other, Hy|].
  split; [apply reg_other, Hy|].
  intros Hi. rewrite reg_closed, Hi.
  destruct (m_enabled s); cbn [negb]; [|reflexivity].
  apply reg_entry_other, Hy.
Qed.

Lemma X2_other_entries_untouched_witness :
  Obj 1 ≠ Obj 2
  ∧ m_allItems (unreg (Some (Obj 2)) Example.s1) !! Obj 1
    = m_allItems Example.s1 !! Obj 1
  ∧ m_allItems (reg Example.E0 (Obj 2) Example.s1) !! Obj 1
    = m_allItems Example.s1 !! Obj 1.
Proof.
  assert (H : Obj 1 ≠ Obj 2) by discriminate.
  split; [exact H|].
  destruct (X2_other_entries_untouched Example.E0 Example.s1 (Obj 2) (Obj 1) H)
    as (H1 & H2 & _).
  split; [exact H1|]. apply H2. discriminate.
Defined.

(** ** The invariants hold in every reachable state *)

Section ReachableInvariants.

Context (E : Env).

Lemma paired_app (l1 l2 : list Effect) :
  paired l1 = true → paired l2 = true → paired (l1 ++ l2) = true.
Proof.
  remember (length l1) as n eqn:Hn. revert l1 Hn.
  induction n as [n IH] using lt_wf_ind. intros l1 Hn H1 H2.
  destruct l1 as [|e r]; [exact H2|].
  destruct e; simpl in *;
    try (apply (IH (length r)); [subst; simpl; lia|reflexivity|exact H1|exact H2]);
    try discriminate.
  destruct r as [|e' r']; [discriminate|].
  destruct e'; try discriminate. simpl.
  apply andb_true_iff in H1. destruct H1 as [Ha Hb]. rewrite Ha. simpl.
  apply (IH (length r')); [subst; simpl; lia|reflexivity|exact Hb|exact H2].
Qed.

Lemma paired_sent o ty : paired (sent o ty) = true.
Proof. simpl. rewrite bool_decide_eq_true_2 by reflexivity. reflexivity. Qed.

Lemma registry_kept_refl (s : Controller) : registry_kept s s.
Proof.
  repeat split. exists []. rewrite app_nil_r. split; reflexivity.
Qed.

(** Closes [registry_kept] goals whose step adds no call. *)
Ltac kept_silently :=
  repeat split; try reflexivity;
  exists []; simpl; rewrite app_nil_r; split; reflexivity.

Lemma announce_kept (text : string) (s : Controller) :
  registry_kept s (announce text s).
Proof.
  unfold announce, triggerRevoicing, sendEvent, needsRevoicing.
  destruct (_ || _); [kept_silently|].
  destruct (negb _); [kept_silently|].
  destruct (iface _); repeat split;
    (eexists (sent _ NameChanged); split;
     [simpl; rewrite <- app_assoc; reflexivity|apply paired_sent]).
Qed.

Lemma setExternalFocus_kept (other : Item) (s : Controller) :
  registry_kept s (setExternalFocus E other s).
Proof.
  unfold setExternalFocus. destruct (negb _); [apply registry_kept_refl|].
  repeat split. exists []. simpl. rewrite app_nil_r. split; reflexivity.
Qed.

Lemma restoreFocus_kept (s : Controller) : registry_kept s (restoreFocus E s).
Proof.
  unfold restoreFocus.
  destruct (negb (nonnull _)); [apply registry_kept_refl|].
  destruct (negb (isUsable _ _ _)).
  - repeat split. exists []. simpl. rewrite app_nil_r. split; reflexivity.
  - destruct (setExternalFocus_kept (findItem s (m_pretendFocus s)) s)
      as (H1 & H2 & H3 & H4 & H5).
    repeat split; simpl; assumption.
Qed.

Lemma repeatCurrentElementInfo_kept (s : Controller) :
  registry_kept s (repeatCurrentElementInfo E s).
Proof.
  unfold repeatCurrentElementInfo.
  destruct (negb (m_textToSpeech s)); [apply registry_kept_refl|].
  destruct (decide (tts_state E = TtsSpeaking)); repeat split; simpl.
  - eexists [TtsStop; TtsSay _]. rewrite <- app_assoc. split; reflexivity.
  - eexists [TtsSay _]. split; reflexivity.
Qed.

Lemma repeatCurrentElementInfo_rev2_kept (s : Controller) :
  registry_kept s (repeatCurrentElementInfo_rev2 E s).
Proof.
  unfold repeatCurrentElementInfo_rev2.
  destruct (negb (m_textToSpeech s)); [apply registry_kept_refl|].
  destruct (decide (tts_state E = TtsSpeaking)); repeat split; simpl.
  - eexists [TtsStop; TtsSay _]. rewrite <- app_assoc. split; reflexivity.
  - eexists [TtsSay _]. split; reflexivity.
Qed.

Lemma eventFilter_kept (event : option QKeyEvent) (s : Controller) :
  registry_kept s (eventFilter E event s).2.
Proof.
  unfold eventFilter.
  destruct event as [ke|]; [|apply registry_kept_refl].
  destruct (negb _); [apply registry_kept_refl|].
  destruct (decide _); [|apply registry_kept_refl].
  destruct (_ && _); [|apply registry_kept_refl].
  apply repeatCurrentElementInfo_kept.
Qed.

Lemma eventFilter_rev2_kept (event : option QKeyEvent) (s : Controller) :
  registry_kept s (eventFilter_rev2 E event s).2.
Proof.
  unfold eventFilter_rev2.
  destruct event as [ke|]; [|apply registry_kept_refl].
  destruct (negb _); [apply registry_kept_refl|].
  destruct (decide _); [|apply registry_kept_refl].
  destruct (_ && _); [|apply registry_kept_refl].
  apply repeatCurrentElementInfo_rev2_kept.
Qed.

(** *** What [reg] and [unreg] do to the registry *)

Lemma reg_entry_fresh (a : IAccessiblePtr) (s : Controller) :
  isValid (findItem s (Some a)) = false →
  m_allItems (reg_entry E a s) =
    <[a := {| item := Some a; object := Some (next_object s);
              iface := queryAccessibleInterface E (next_object s) |}]> (m_allItems s)
  ∧ next_object (reg_entry E a s) = S (next_object s)
  ∧ effects (reg_entry E a s) = effects s ++ sent (Some (next_object s)) ObjectCreated.
Proof.
  intros Hv. unfold reg_entry, sendEvent. rewrite Hv.
  destruct (decide _); simpl; rewrite <- app_assoc; auto.
Qed.

Lemma reg_entry_effects (a : IAccessiblePtr) (s : Controller) :
  ∃ l, effects (reg_entry E a s) = effects s ++ l ∧ paired l = true.
Proof.
  destruct (isValid (findItem s (Some a))) eqn:Hv.
  - rewrite reg_entry_noop by exact Hv. exists []. rewrite app_nil_r. auto.
  - destruct (reg_entry_fresh a s Hv) as (_ & _ & He). rewrite He.
    eexists. split; [reflexivity|apply paired_sent].
Qed.

Lemma init_result_fields (s : Controller) :
  let s1 := reg_entry E This (emit InstallFactory s) in
  m_allItems (init_result E s) = m_allItems s1
  ∧ next_object (init_result E s) = next_object s1
  ∧ effects (init_result E s) =
      effects s1 ++ [InstallRootObjectHandler;
                     SetRootObject (object (findItem s1 (Some This)))]
      ++ (if qApp E && negb (m_keyFilter s) then [InstallEventFilter] else [])
  ∧ s_rootObject (init_result E s) = object (findItem s1 (Some This))
  ∧ m_keyFilter (init_result E s) = m_keyFilter s || qApp E.
Proof.
  intros s1. unfold init_result. fold s1.
  assert (Hk : m_keyFilter s1 = m_keyFilter s).
  { unfold s1, reg_entry, sendEvent. destruct (isValid _); [reflexivity|].
    destruct (decide _); reflexivity. }
  simpl. rewrite Hk.
  destruct (qApp E), (m_keyFilter s); simpl;
    repeat split; rewrite <- ?app_assoc, ?Hk; reflexivity.
Qed.

Lemma init_result_effects (s : Controller) :
  ∃ l, effects (init_result E s) = effects s ++ l ∧ paired l = true.
Proof.
  destruct (init_result_fields s) as (_ & _ & He & _). rewrite He.
  destruct (reg_entry_effects This (emit InstallFactory s)) as (l & Hl & Hp).
  rewrite Hl. simpl.
  eexists (InstallFactory :: l ++ _). split.
  - rewrite <- !app_assoc. reflexivity.
  - simpl. apply paired_app; [exact Hp|]. destruct (qApp E && _); reflexivity.
Qed.

Lemma reg_effects (a : IAccessiblePtr) (s : Controller) :
  ∃ l, effects (reg E a s) = effects s ++ l ∧ paired l = true.
Proof.
  rewrite reg_closed.
  destruct (m_enabled s); cbn [negb];
    [|exists []; rewrite app_nil_r; auto].
  destruct (reg_entry_effects a
              (if negb (m_inited s) then init_result E (set_m_inited true s) else s))
    as (l & Hl & Hp).
  rewrite Hl. destruct (m_inited s); cbn [negb].
  - exists l. auto.
  - destruct (init_result_effects (set_m_inited true s)) as (l0 & Hl0 & Hp0).
    rewrite Hl0. exists (l0 ++ l). split.
    + rewrite <- app_assoc. reflexivity.
    + apply paired_app; assumption.
Qed.

Lemma unreg_effects (p : option IAccessiblePtr) (s : Controller) :
  ∃ l, effects (unreg p s) = effects s ++ l ∧ paired l = true.
Proof.
  destruct p as [a|]; [|exists []; rewrite app_nil_r; auto].
  unfold unreg, sendEvent.
  destruct (negb _); [exists []; rewrite app_nil_r; auto|].
  eexists (sent _ ObjectDestroyed ++ [DeleteObject _]). split.
  - repeat (first [case_decide | case_bool_decide]; simpl);
      rewrite <- !app_assoc; reflexivity.
  - simpl. rewrite bool_decide_eq_true_2 by reflexivity. reflexivity.
Qed.

(** X5. Events always reach both sinks, the internal channel first: in the
    log of every reachable state each event sent to the channel is followed
    at once by the same event to the platform, and the platform receives no
    event that the channel did not get. *)
Theorem X5_events_reach_both_sinks (s : Controller) :
  reachable E s → paired (effects s) = true.
Proof.
  induction 1 as [hotkey|b s _ IH|a s _ IH|p s _ IH|text s _ IH|other s _ IH
                 |s _ IH|s _ IH|event s _ IH|s _ IH|event s _ IH].
  - reflexivity.
  - exact IH.
  - destruct (reg_effects a s) as (l & -> & Hp). apply paired_app; assumption.
  - destruct (unreg_effects p s) as (l & -> & Hp). apply paired_app; assumption.
  - destruct (announce_kept text s) as (_ & _ & _ & _ & l & -> & Hp).
    apply paired_app; assumption.
  - destruct (setExternalFocus_kept other s) as (_ & _ & _ & _ & l & -> & Hp).
    apply paired_app; assumption.
  - destruct (restoreFocus_kept s) as (_ & _ & _ & _ & l & -> & Hp).
    apply paired_app; assumption.
  - destruct (repeatCurrentElementInfo_kept s) as (_ & _ & _ & _ & l & -> & Hp).
    apply paired_app; assumption.
  - destruct (eventFilter_kept event s) as (_ & _ & _ & _ & l & -> & Hp).
    apply paired_app; assumption.
  - destruct (repeatCurrentElementInfo_rev2_kept s) as (_ & _ & _ & _ & l & -> & Hp).
    apply paired_app; assumption.
  - destruct (eventFilter_rev2_kept event s) as (_ & _ & _ & _ & l & -> & Hp).
    apply paired_app; assumption.
Qed.

(** *** Wrappers *)

Lemma wrappers_kept (s s' : Controller) :
  registry_kept s s' → wrappers_ok E s → wrappers_ok E s'.
Proof.
  intros (Ht & _ & Hn & _) [H1 H2]. split.
  - intros k it o. rewrite Ht, Hn. apply H1.
  - intros k1 k2 it1 it2 o. rewrite Ht. apply H2.
Qed.

Lemma wrappers_reg_entry (a : IAccessiblePtr) (s : Controller) :
  wrappers_ok E s → wrappers_ok E (reg_entry E a s).
Proof.
  intros [H1 H2].
  destruct (isValid (findItem s (Some a))) eqn:Hv.
  { rewrite reg_entry_noop by exact Hv. split; assumption. }
  destruct (reg_entry_fresh a s Hv) as (Ht & Hn & _).
  split.
  - intros k it o. rewrite Ht, Hn. intros Hl Ho.
    apply lookup_insert_Some in Hl. destruct Hl as [[-> <-]|[_ Hl]].
    + simpl in Ho. inversion Ho; subst. split; [lia|reflexivity].
    + destruct (H1 _ _ _ Hl Ho) as [Hlt Hi]. split; [lia|exact Hi].
  - intros k1 k2 it1 it2 o. rewrite Ht. intros Hl1 Hl2 Ho1 Ho2.
    apply lookup_insert_Some in Hl1. apply lookup_insert_Some in Hl2.
    destruct Hl1 as [[-> <-]|[_ Hl1]], Hl2 as [[-> <-]|[_ Hl2]].
    + reflexivity.
    + simpl in Ho1. inversion Ho1; subst.
      destruct (H1 _ _ _ Hl2 Ho2) as [Hlt _]. lia.
    + simpl in Ho2. inversion Ho2; subst.
      destruct (H1 _ _ _ Hl1 Ho1) as [Hlt _]. lia.
    + eapply H2; eauto.
Qed.

Lemma wrappers_same (s s' : Controller) :
  m_allItems s' = m_allItems s → next_object s' = next_object s →
  wrappers_ok E s → wrappers_ok E s'.
Proof.
  intros Ht Hn [H1 H2]. split.
  - intros k it o. rewrite Ht, Hn. apply H1.
  - intros k1 k2 it1 it2 o. rewrite Ht. apply H2.
Qed.

Lemma wrappers_init_result (s : Controller) :
  wrappers_ok E s → wrappers_ok E (init_result E s).
Proof.
  intros H. destruct (init_result_fields s) as (Ht & Hn & _).
  eapply wrappers_same; [exact Ht|exact Hn|].
  apply wrappers_reg_entry. eapply wrappers_same; [| |exact H]; reflexivity.
Qed.

Lemma wrappers_reg (a : IAccessiblePtr) (s : Controller) :
  wrappers_ok E s → wrappers_ok E (reg E a s).
Proof.
  intros H. rewrite reg_closed.
  destruct (m_enabled s); cbn [negb]; [|exact H].
  apply wrappers_reg_entry.
  destruct (m_inited s); cbn [negb]; [exact H|].
  apply wrappers_init_result. eapply wrappers_same; [| |exact H]; reflexivity.
Qed.

Lemma unreg_next_object (p : option IAccessiblePtr) (s : Controller) :
  next_object (unreg p s) = next_object s.
Proof.
  destruct p as [a|]; [|reflexivity]. unfold unreg, sendEvent.
  destruct (negb _); [reflexivity|].
  repeat (first [case_decide | case_bool_decide]; simpl); reflexivity.
Qed.

Lemma wrappers_unreg (p : option IAccessiblePtr) (s : Controller) :
  wrappers_ok E s → wrappers_ok E (unreg p s).
Proof.
  intros [H1 H2]. destruct p as [a|]; [|split; assumption]. split.
  - intros k it o. rewrite unreg_allItems, unreg_next_object.
    intros Hl. apply lookup_delete_Some in Hl. destruct Hl as [_ Hl]. eauto.
  - intros k1 k2 it1 it2 o. rewrite unreg_allItems. intros Hl1 Hl2.
    apply lookup_delete_Some in Hl1. apply lookup_delete_Some in Hl2.
    destruct Hl1 as [_ Hl1], Hl2 as [_ Hl2]. eauto.
Qed.

Lemma reachable_wrappers (s : Controller) : reachable E s → wrappers_ok E s.
Proof.
  induction 1 as [hotkey|b s _ IH|a s _ IH|p s _ IH|text s _ IH|other s _ IH
                 |s _ IH|s _ IH|event s _ IH|s _ IH|event s _ IH].
  - split; intros *; simpl; rewrite lookup_empty; discriminate.
  - exact IH.
  - apply wrappers_reg, IH.
  - apply wrappers_unreg, IH.
  - eapply wrappers_kept; [apply announce_kept|exact IH].
  - eapply wrappers_kept; [apply setExternalFocus_kept|exact IH].
  - eapply wrappers_kept; [apply restoreFocus_kept|exact IH].
  - eapply wrappers_kept; [apply repeatCurrentElementInfo_kept|exact IH].
  - eapply wrappers_kept; [apply eventFilter_kept|exact IH].
  - eapply wrappers_kept; [apply repeatCurrentElementInfo_rev2_kept|exact IH].
  - eapply wrappers_kept; [apply eventFilter_rev2_kept|exact IH].
Qed.

(** X3. In every reachable state each entry owns a wrapper of its own: two
    different items never share a wrapper object, every wrapper was handed
    out by the allocator before, and the platform handle stored in an entry
    is the one [queryAccessibleInterface] resolved for that wrapper. *)
Theorem X3_wrappers_are_unique (s : Controller) :
  reachable E s →
  (∀ k1 k2 it1 it2,
     m_allItems s !! k1 = Some it1 → m_allItems s !! k2 = Some it2 →
     object it1 = object it2 → k1 = k2)
  ∧ (∀ k it, m_allItems s !! k = Some it →
       ∃ o, object it = Some o ∧ (o < next_object s)%nat
            ∧ iface it = queryAccessibleInterface E o).
Proof.
  intros Hr.
  destruct (reachable_wrappers s Hr) as [H1 H2].
  destruct (reachable_wf E s Hr) as [Hk _].
  assert (Hobj : ∀ k it, m_allItems s !! k = Some it → ∃ o, object it = Some o).
  { intros k it Hl. destruct (Hk _ _ Hl) as [_ Ho].
    destruct (object it) as [o|]; [eauto|discriminate]. }
  split.
  - intros k1 k2 it1 it2 Hl1 Hl2 Heq.
    destruct (Hobj _ _ Hl1) as [o Ho]. eapply H2; eauto. congruence.
  - intros k it Hl. destruct (Hobj _ _ Hl) as [o Ho].
    exists o. destruct (H1 _ _ _ Hl Ho). auto.
Qed.

(** *** The top-level list *)

Lemma removeOne_notin (a : IAccessiblePtr) (l : list IAccessiblePtr) :
  a ∉ l → removeOne a l = l.
Proof.
  induction l as [|x l IH]; [reflexivity|]. intros Hn. simpl.
  destruct (decide (x = a)) as [->|_].
  - exfalso. apply Hn. left.
  - rewrite IH; [reflexivity|]. intros H. apply Hn. right. exact H.
Qed.

Lemma removeOne_elem (a x : IAccessiblePtr) (l : list IAccessiblePtr) :
  x ∈ removeOne a l → x ∈ l.
Proof.
  induction l as [|y l IH]; simpl; [auto|].
  destruct (decide (y = a)); intros H.
  - right. exact H.
  - apply elem_of_cons in H. destruct H as [->|H]; [left|right; auto].
Qed.

Lemma removeOne_NoDup (a : IAccessiblePtr) (l : list IAccessiblePtr) :
  NoDup l → NoDup (removeOne a l) ∧ a ∉ removeOne a l.
Proof.
  induction 1 as [|y l Hy Hl IH]; simpl.
  - split; [constructor|apply not_elem_of_nil].
  - destruct (decide (y = a)) as [->|Hne]; [auto|].
    destruct IH as [IH1 IH2]. split.
    + constructor; [|exact IH1]. intros H. apply Hy. eapply removeOne_elem, H.
    + intros H. apply elem_of_cons in H. destruct H as [->|H]; auto.
Qed.

Lemma unreg_children (a : IAccessiblePtr) (s : Controller) (it : Item) :
  m_allItems s !! a = Some it → isValid it = true →
  m_children (unreg (Some a) s) = removeOne a (m_children s).
Proof.
  intros Hl Hv. unfold unreg, sendEvent. rewrite Hl. simpl. rewrite Hv. simpl.
  repeat (first [case_decide | case_bool_decide]; simpl);
    try reflexivity; symmetry; apply removeOne_notin; assumption.
Qed.

Lemma children_kept (s s' : Controller) :
  registry_kept s s' → children_ok E s → children_ok E s'.
Proof.
  intros (Ht & _ & _ & Hc & _) [H1 H2]. split.
  - rewrite Hc. exact H1.
  - intros x. rewrite Hc, Ht, (parent_state_independent E x s' s). apply H2.
Qed.

Lemma children_reg (a : IAccessiblePtr) (s : Controller) :
  wf s → children_ok E s → children_ok E (reg E a s).
Proof.
  intros Hwf [H1 H2]. destruct (m_enabled s) eqn:He;
    [|rewrite reg_disabled by exact He; split; assumption].
  assert (Hkeep : ∀ x, x ∈ m_children s →
            is_Some (m_allItems (reg E a s) !! x)
            ∧ IAccessible.accessibleParent (deref E (reg E a s) x) = Some This).
  { intros x Hx. destruct (H2 x Hx) as [Hs Hp]. split.
    - apply reg_lookup; auto.
    - rewrite (parent_state_independent E x _ s). exact Hp. }
  unfold children_ok. rewrite (reg_children E a s Hwf He).
  destruct (decide (is_Some (m_allItems s !! a))) as [Hs|Hs].
  { rewrite app_nil_r. split; assumption. }
  destruct (decide (IAccessible.accessibleParent (deref E s a) = Some This))
    as [Hp|Hp].
  - split.
    + apply NoDup_app. split; [exact H1|]. split; [|apply NoDup_singleton].
      intros x Hx Hxa. apply list_elem_of_singleton in Hxa. subst x.
      apply Hs, (H2 a Hx).
    + intros x Hx. apply elem_of_app in Hx. destruct Hx as [Hx|Hx]; [auto|].
      apply list_elem_of_singleton in Hx. subst x. split.
      * apply reg_lookup; auto.
      * rewrite (parent_state_independent E a _ s). exact Hp.
  - rewrite app_nil_r. split; assumption.
Qed.

Lemma children_unreg (p : option IAccessiblePtr) (s : Controller) :
  wf s → children_ok E s → children_ok E (unreg p s).
Proof.
  intros Hwf [H1 H2]. destruct p as [a|]; [|split; assumption].
  destruct (m_allItems s !! a) as [it|] eqn:Hl;
    [|rewrite unreg_absent by exact Hl; split; assumption].
  assert (Hv : isValid it = true).
  { destruct (proj1 Hwf _ _ Hl). eapply isValid_entry; eauto. }
  unfold children_ok. rewrite (unreg_children a s it Hl Hv).
  destruct (removeOne_NoDup a (m_children s) H1) as [Hnd Hna].
  split; [exact Hnd|].
  intros x Hx. destruct (H2 x (removeOne_elem a x _ Hx)) as [Hs Hp]. split.
  - rewrite unreg_allItems, lookup_delete_ne; [exact Hs|].
    intros ->. contradiction.
  - rewrite (parent_state_independent E x _ s). exact Hp.
Qed.

Lemma reachable_children (s : Controller) : reachable E s → children_ok E s.
Proof.
  induction 1 as [hotkey|b s Hr IH|a s Hr IH|p s Hr IH|text s _ IH|other s _ IH
                 |s _ IH|s _ IH|event s _ IH|s _ IH|event s _ IH].
  - split; [constructor|]. intros x Hx. simpl in Hx.
    apply not_elem_of_nil in Hx. contradiction.
  - eapply children_kept; [|exact IH]. kept_silently.
  - apply children_reg; [apply (reachable_wf E), Hr|exact IH].
  - apply children_unreg; [apply (reachable_wf E), Hr|exact IH].
  - eapply children_kept; [apply announce_kept|exact IH].
  - eapply children_kept; [apply setExternalFocus_kept|exact IH].
  - eapply children_kept; [apply restoreFocus_kept|exact IH].
  - eapply children_kept; [apply repeatCurrentElementInfo_kept|exact IH].
  - eapply children_kept; [apply eventFilter_kept|exact IH].
  - eapply children_kept; [apply repeatCurrentElementInfo_rev2_kept|exact IH].
  - eapply children_kept; [apply eventFilter_rev2_kept|exact IH].
Qed.


End ReachableInvariants.

Lemma X5_events_reach_both_sinks_witness :
  reachable Example.E0 (announce "Voice 1 selected" Example.s1)
  ∧ paired (effects (announce "Voice 1 selected" Example.s1)) = true.
Proof.
  assert (Hr : reachable Example.E0 (announce "Voice 1 selected" Example.s1)).
  { apply reach_announce, reach_reg, reach_constructed. }
  split; [exact Hr|].
  exact (X5_events_reach_both_sinks Example.E0 _ Hr).
Defined.

Lemma X3_wrappers_are_unique_witness :
  reachable Example.E0 (reg Example.E0 (Obj 2) Example.s1)
  ∧ ∃ o, (o < next_object (reg Example.E0 (Obj 2) Example.s1))%nat
         ∧ object (findItem (reg Example.E0 (Obj 2) Example.s1) (Some (Obj 2)))
           = Some o.
Proof.
  assert (Hr : reachable Example.E0 (reg Example.E0 (Obj 2) Example.s1)).
  { apply reach_reg, reach_reg, reach_constructed. }
  split; [exact Hr|].
  destruct (proj2 (X3_wrappers_are_unique Example.E0 _ Hr) (Obj 2)
              {| item := Some (Obj 2); object := Some 2%nat; iface := Some 2%nat |})
    as (o & Ho & Hlt & _).
  - vm_compute. reflexivity.
  - exists o. split; [exact Hlt|]. simpl in Ho. inversion Ho; subst.
    vm_compute. reflexivity.
Defined.


(** ** What a registration does *)

(** X6. On an initialised, enabled controller, [reg] of an item without an
    entry stores an entry keyed by the item with a wrapper fresh from the
    allocator and the handle the platform resolves for it, appends the item
    to the top-level list exactly when it reports the controller as its
    parent, and sends one ObjectCreated event for the new wrapper to both
    sinks. *)
Theorem X6_reg_new_item (E : Env) (s : Controller) (a : IAccessiblePtr) :
  m_enabled s = true → m_inited s = true → m_allItems s !! a = None →
  m_allItems (reg E a s) =
    <[a := {| item := Some a; object := Some (next_object s);
              iface := queryAccessibleInterface E (next_object s) |}]> (m_allItems s)
  ∧ next_object (reg E a s) = S (next_object s)
  ∧ m_children (reg E a s) =
      m_children s ++
      (if decide (IAccessible.accessibleParent (deref E s a) = Some This)
       then [a] else [])
  ∧ effects (reg E a s) = effects s ++ sent (Some (next_object s)) ObjectCreated.
Proof.
  intros He Hi Hl.
  assert (Hv : isValid (findItem s (Some a)) = false).
  { simpl. rewrite Hl. reflexivity. }
  rewrite reg_closed, He, Hi. cbn [negb].
  destruct (reg_entry_fresh E a s Hv) as (H1 & H2 & H3).
  rewrite reg_entry_children, Hv. auto.
Qed.

Lemma X6_reg_new_item_witness :
  m_allItems Example.s1 !! Obj 2 = None
  ∧ effects (reg Example.E0 (Obj 2) Example.s1)
    = effects Example.s1 ++ sent (Some (next_object Example.s1)) ObjectCreated.
Proof.
  assert (H : m_allItems Example.s1 !! Obj 2 = None) by (vm_compute; reflexivity).
  split; [exact H|].
  exact (proj2 (proj2 (proj2
           (X6_reg_new_item Example.E0 Example.s1 (Obj 2) eq_refl eq_refl H)))).
Defined.

(** X7. The first [reg] on an enabled controller runs the one-time
    initialisation before it registers the item: it installs the interface
    factory, registers the controller itself as the root with the first
    wrapper, makes that wrapper the platform's root object, and installs the
    global key filter when there is an application object and none is
    installed yet.  Only then does the item get its own wrapper and event. *)
Theorem X7_first_reg_initialises (E : Env) (s : Controller) (a : IAccessiblePtr) :
  m_enabled s = true → m_inited s = false → m_allItems s = ∅ →
  let n := next_object s in
  effects (reg E a s) =
    effects s ++ [InstallFactory] ++ sent (Some n) ObjectCreated
    ++ [InstallRootObjectHandler; SetRootObject (Some n)]
    ++ (if qApp E && negb (m_keyFilter s) then [InstallEventFilter] else [])
    ++ (if decide (a = This) then [] else sent (Some (S n)) ObjectCreated)
  ∧ m_inited (reg E a s) = true
  ∧ s_rootObject (reg E a s) = Some n
  ∧ object (findItem (reg E a s) (Some This)) = Some n
  ∧ m_keyFilter (reg E a s) = m_keyFilter s || qApp E.
Proof.
  intros He Hi Hempty n.
  set (s0 := emit InstallFactory (set_m_inited true s)).
  assert (Hv0 : isValid (findItem s0 (Some This)) = false).
  { simpl. rewrite Hempty, lookup_empty. reflexivity. }
  destruct (reg_entry_fresh E This s0 Hv0) as (Ht1 & Hn1 & He1).
  destruct (init_result_fields E (set_m_inited true s)) as (Ht & Hn & Hef & Hroot & Hkf).
  fold s0 in Ht, Hn, Hef, Hroot.
  assert (Hself : object (findItem (reg_entry E This s0) (Some This)) = Some n).
  { simpl. rewrite Ht1, lookup_insert_eq. reflexivity. }
  rewrite Hself in Hef, Hroot. rewrite He1 in Hef. simpl in Hef, Hkf.
  rewrite reg_closed, He, Hi. cbn [negb].
  set (si := init_result E (set_m_inited true s)) in *.
  assert (Hflags : m_inited (reg_entry E a si) = true).
  { rewrite (proj2 (reg_entry_flags E a si)). unfold si.
    rewrite (proj2 (init_result_flags E _)). reflexivity. }
  assert (Hroot' : s_rootObject (reg_entry E a si) = Some n
                   ∧ m_keyFilter (reg_entry E a si) = m_keyFilter s || qApp E).
  { rewrite <- Hroot, <- Hkf. unfold reg_entry, sendEvent.
    destruct (isValid (findItem si (Some a))); [auto|].
    destruct (decide _); auto. }
  destruct Hroot' as [Hr1 Hr2].
  destruct (decide (a = This)) as [->|Hne].
  - assert (Hv : isValid (findItem si (Some This)) = true).
    { simpl. rewrite Ht, Ht1, lookup_insert_eq. reflexivity. }
    rewrite (reg_entry_noop E This si Hv) in *.
    rewrite Hef. repeat split; auto.
    + rewrite <- !app_assoc, app_nil_r. reflexivity.
    + simpl. rewrite Ht, Ht1, lookup_insert_eq. reflexivity.
  - assert (Hv : isValid (findItem si (Some a)) = false).
    { simpl. rewrite Ht, Ht1, lookup_insert_ne by congruence.
      simpl. rewrite Hempty, lookup_empty. reflexivity. }
    destruct (reg_entry_fresh E a si Hv) as (Ht2 & Hn2 & He2).
    rewrite He2, Hef, Hn, Hn1. repeat split; auto.
    + rewrite <- !app_assoc. reflexivity.
    + simpl. rewrite Ht2, lookup_insert_ne by congruence.
      rewrite Ht, Ht1, lookup_insert_eq. reflexivity.
Qed.

Lemma X7_first_reg_initialises_witness :
  m_allItems Example.s0 = ∅
  ∧ s_rootObject (reg Example.E0 (Obj 1) Example.s0) = Some 0%nat.
Proof.
  split; [reflexivity|].
  exact (proj1 (proj2 (proj2
           (X7_first_reg_initialises Example.E0 Example.s0 (Obj 1)
              eq_refl eq_refl eq_refl)))).
Defined.

(** ** Announcements and focus *)

(** X8. [announce] with a non-empty text, while the focused item has a
    valid entry, stores the text and sends one NameChanged event for the
    wrapper of the focused item to both sinks, and changes nothing else;
    while the focused item has no entry it only stores the text. *)
Theorem X8_announce_on_focused_item (s : Controller) (text : string)
  (p : IAccessiblePtr) :
  isEmpty text = false → m_lastFocused s = Some p →
  (∀ it, m_allItems s !! p = Some it → isValid it = true →
         announce text s =
         emit (UpdateAccessibility {| ev_object := object it; ev_type := NameChanged |})
           (emit (ChannelSend {| ev_object := object it; ev_type := NameChanged |})
              (set_m_announcement text s)))
  ∧ (m_allItems s !! p = None → announce text s = set_m_announcement text s).
Proof.
  intros Ht Hf. split.
  - intros it Hl Hv. unfold announce. simpl. rewrite Hf, Ht. simpl.
    rewrite Hl, Hv. simpl. unfold needsRevoicing, sendEvent.
    destruct (iface it); reflexivity.
  - intros Hl. unfold announce. simpl. rewrite Hf, Ht. simpl.
    rewrite Hl. reflexivity.
Qed.

Lemma X8_announce_on_focused_item_witness :
  isEmpty "Voice 1 selected" = false
  ∧ m_lastFocused Example.s1_focused = Some (Obj 1)
  ∧ effects (announce "Voice 1 selected" Example.s1_focused)
    = effects Example.s1_focused ++ sent (Some 1%nat) NameChanged.
Proof.
  split; [reflexivity|]. split; [reflexivity|].
  assert (Hl : m_allItems Example.s1_focused !! Obj 1
               = Some {| item := Some (Obj 1); object := Some 1%nat;
                         iface := Some 1%nat |})
    by (vm_compute; reflexivity).
  pose proof (proj1 (X8_announce_on_focused_item Example.s1_focused
                       "Voice 1 selected" (Obj 1) eq_refl eq_refl)
                _ Hl eq_refl) as H.
  rewrite H. vm_compute. reflexivity.
Defined.

(** X9. [restoreFocus] always leaves the pretend focus cleared and makes no
    outgoing call.  It moves [m_lastFocused] to the pretend-focus target
    exactly when that target has an entry and is not ignored; otherwise
    [m_lastFocused] is kept.  [setExternalFocus] never focuses an item
    that is ignored or whose entry is invalid. *)
Theorem X9_restoreFocus (E : Env) (s : Controller) :
  wf s →
  m_pretendFocus (restoreFocus E s) = None
  ∧ effects (restoreFocus E s) = effects s
  ∧ m_allItems (restoreFocus E s) = m_allItems s
  ∧ m_lastFocused (restoreFocus E s) =
      match m_pretendFocus s with
      | Some p =>
          if bool_decide (is_Some (m_allItems s !! p))
             && negb (IAccessible.accessibleIgnored (deref E s p))
          then Some p else m_lastFocused s
      | None => m_lastFocused s
      end
  ∧ (∀ other, isUsable E s other = false → setExternalFocus E other s = s).
Proof.
  intros [Hk _].
  assert (Hlast : m_lastFocused (restoreFocus E s) =
      match m_pretendFocus s with
      | Some p =>
          if bool_decide (is_Some (m_allItems s !! p))
             && negb (IAccessible.accessibleIgnored (deref E s p))
          then Some p else m_lastFocused s
      | None => m_lastFocused s
      end).
  { unfold restoreFocus, setExternalFocus.
    destruct (m_pretendFocus s) as [p|]; [|reflexivity]. cbn [nonnull negb].
    unfold isUsable. cbn [findItem].
    destruct (m_allItems s !! p) as [it|] eqn:Hl.
    - destruct (Hk _ _ Hl) as [Hi Ho].
      rewrite (isValid_entry p it Hi Ho), Hi.
      rewrite bool_decide_eq_true_2 by eauto. cbn [andb].
      destruct (IAccessible.accessibleIgnored (deref E s p)); reflexivity.
    - rewrite bool_decide_eq_false_2 by (intros [? ?]; discriminate).
      reflexivity. }
  split; [|split; [|split; [|split; [exact Hlast|]]]].
  - clear Hlast. unfold restoreFocus.
    destruct (m_pretendFocus s) eqn:Hp; [|exact Hp].
    cbn [nonnull negb]. destruct (negb (isUsable E s _)); reflexivity.
  - unfold restoreFocus, setExternalFocus.
    destruct (negb (nonnull _)); [reflexivity|].
    destruct (negb (isUsable E s _)); reflexivity.
  - apply (restoreFocus_kept E s).
  - intros other Hu. unfold setExternalFocus. rewrite Hu. reflexivity.
Qed.

Lemma wf_set_focus (f p : option IAccessiblePtr) (s : Controller) :
  wf s → wf (set_m_pretendFocus p (set_m_lastFocused f s)).
Proof. intros H. eapply wf_same_table; [| |exact H]; auto. Qed.

Lemma X9_restoreFocus_witness :
  wf Example.s1_focused
  ∧ m_pretendFocus (restoreFocus Example.E0 Example.s1_focused) = None
  ∧ m_lastFocused (restoreFocus Example.E0 Example.s1_focused) = Some (Obj 1).
Proof.
  assert (Hwf : wf Example.s1_focused).
  { exact (wf_set_focus (Some (Obj 1)) (Some (Obj 1)) Example.s1
             (wf_reg Example.E0 (Obj 1) Example.s0 (wf_constructed Key_F12))). }
  split; [exact Hwf|].
  destruct (X9_restoreFocus Example.E0 Example.s1_focused Hwf)
    as (H1 & _ & _ & H2 & _).
  split; [exact H1|]. rewrite H2. vm_compute. reflexivity.
Defined.

Lemma reg_keeps_focus (E : Env) (a : IAccessiblePtr) (s : Controller) :
  m_lastFocused (reg E a s) = m_lastFocused s
  ∧ m_pretendFocus (reg E a s) = m_pretendFocus s.
Proof.
  assert (Hentry : ∀ x s0, m_lastFocused (reg_entry E x s0) = m_lastFocused s0
                           ∧ m_pretendFocus (reg_entry E x s0) = m_pretendFocus s0).
  { intros x s0. unfold reg_entry, sendEvent.
    destruct (isValid (findItem s0 (Some x))); [auto|].
    destruct (decide _); auto. }
  rewrite reg_closed. destruct (m_enabled s); cbn [negb]; [|auto].
  destruct (Hentry a (if negb (m_inited s)
                      then init_result E (set_m_inited true s) else s)) as [-> ->].
  destruct (m_inited s); cbn [negb]; [auto|].
  unfold init_result.
  destruct (Hentry This (emit InstallFactory (set_m_inited true s))) as [H1 H2].
  destruct (qApp E && _); simpl; rewrite H1, H2; auto.
Qed.

(** X13. Registration, announcements and the repeat hotkey never move the
    focus: [reg], [announce], [repeatCurrentElementInfo] and [eventFilter]
    leave both [m_lastFocused] and [m_pretendFocus] as they are. *)
Theorem X13_focus_only_moves_explicitly (E : Env) (s : Controller)
  (a : IAccessiblePtr) (text : string) (event : option QKeyEvent) :
  (m_lastFocused (reg E a s) = m_lastFocused s
   ∧ m_pretendFocus (reg E a s) = m_pretendFocus s)
  ∧ (m_lastFocused (announce text s) = m_lastFocused s
     ∧ m_pretendFocus (announce text s) = m_pretendFocus s)
  ∧ (m_lastFocused (repeatCurrentElementInfo E s) = m_lastFocused s
     ∧ m_pretendFocus (repeatCurrentElementInfo E s) = m_pretendFocus s)
  ∧ (m_lastFocused (eventFilter E event s).2 = m_lastFocused s
     ∧ m_pretendFocus (eventFilter E event s).2 = m_pretendFocus s).
Proof.
  assert (Hrep : m_lastFocused (repeatCurrentElementInfo E s) = m_lastFocused s
                 ∧ m_pretendFocus (repeatCurrentElementInfo E s) = m_pretendFocus s).
  { unfold repeatCurrentElementInfo.
    destruct (negb (m_textToSpeech s)); [auto|].
    destruct (decide (tts_state E = TtsSpeaking)); auto. }
  split; [|split; [|split; [exact Hrep|]]].
  - apply reg_keeps_focus.
  - unfold announce, triggerRevoicing, sendEvent, needsRevoicing.
    destruct (_ || _); [auto|]. destruct (negb _); [auto|].
    destruct (iface _); auto.
  - unfold eventFilter. destruct event as [ke|]; [|auto].
    destruct (negb _); [auto|]. destruct (decide _); [|auto].
    destruct (_ && _); [exact Hrep|auto].
Qed.

(** ** Speaking the current element *)

(** The description is never the empty string. *)
Lemma buildSpokenDescriptionFor_nonempty (acc : option IAccessible.t) :
  isEmpty (buildSpokenDescriptionFor acc) = false.
Proof.
  destruct acc as [it|]; [|reflexivity].
  unfold buildSpokenDescriptionFor.
  assert (Hgen : ∀ name desc val : string,
    isEmpty
      (let parts : list string := [] in
       let parts := if negb (isEmpty name) then parts ++ [name] else parts in
       let parts := if negb (isEmpty desc) then parts ++ [desc] else parts in
       let parts := if negb (isEmpty val)
                    then parts ++ [("value: " +:+ val)%string] else parts in
       if QStringList_isEmpty parts then "Unknown element"%string
       else join ", " parts) = false).
  { intros [|c1 n] [|c2 d] [|c3 v]; reflexivity. }
  destruct (decide _); [|apply Hgen].
  destruct (IAccessible.accessibleScreenReaderInfo it) as [|c1 m1],
           (IAccessible.accessibleExtraInfo it) as [|c2 m2];
    try reflexivity.
  apply Hgen.
Qed.

(** X10. The spoken description is never empty.  Hence, while an item is
    focused and there is a speech engine, [repeatCurrentElementInfo] speaks
    exactly the description of the focused item (the fallback to the
    platform's focus object and the "No element focused" default are not
    used), after stopping the engine if and only if it is speaking; both
    revisions of the function then do the same. *)
Theorem X10_repeat_speaks_description (E : Env) (s : Controller) (p : IAccessiblePtr) :
  m_textToSpeech s = true → m_lastFocused s = Some p →
  (∀ acc, isEmpty (buildSpokenDescriptionFor acc) = false)
  ∧ repeatCurrentElementInfo E s =
      emit (TtsSay (buildSpokenDescriptionFor (Some (deref E s p))))
        (if decide (tts_state E = TtsSpeaking) then emit TtsStop s else s)
  ∧ repeatCurrentElementInfo_rev2 E s = repeatCurrentElementInfo E s.
Proof.
  intros Ht Hf. split; [exact buildSpokenDescriptionFor_nonempty|].
  pose proof (buildSpokenDescriptionFor_nonempty (Some (deref E s p))) as Hne.
  assert (H1 : repeatCurrentElementInfo E s =
      emit (TtsSay (buildSpokenDescriptionFor (Some (deref E s p))))
        (if decide (tts_state E = TtsSpeaking) then emit TtsStop s else s)).
  { unfold repeatCurrentElementInfo. rewrite Ht, Hf. cbn [negb].
    rewrite Hne, Hne. reflexivity. }
  split; [exact H1|]. rewrite H1.
  unfold repeatCurrentElementInfo_rev2. rewrite Ht, Hf. cbn [negb fmap option_fmap option_map].
  rewrite Hne. reflexivity.
Qed.

Lemma X10_repeat_speaks_description_witness :
  m_lastFocused Example.s1_focused = Some (Obj 1)
  ∧ effects (repeatCurrentElementInfo Example.E0 Example.s1_focused)
    = effects Example.s1_focused ++ [TtsSay "Palettes"].
Proof.
  split; [reflexivity|].
  rewrite (proj1 (proj2 (X10_repeat_speaks_description Example.E0
                           Example.s1_focused (Obj 1) eq_refl eq_refl))).
  vm_compute. reflexivity.
Defined.

(** X11. Without a focused item [repeatCurrentElementInfo] speaks the
    non-empty texts among name, description and value of the platform's
    focus object joined with ", ", and "No element focused" when there is no
    such object or all three are empty; the later revision always speaks
    "No element focused".  Without a speech engine neither does anything. *)
Theorem X11_repeat_without_focus (E : Env) (s : Controller) :
  m_lastFocused s = None →
  (m_textToSpeech s = true →
     repeatCurrentElementInfo E s =
       emit (TtsSay
               match focusObjectText E with
               | Some (name, descr, value) =>
                   match nonEmpty [name; descr; value] with
                   | [] => "No element focused"%string
                   | parts => join ", " parts
                   end
               | None => "No element focused"%string
               end)
         (if decide (tts_state E = TtsSpeaking) then emit TtsStop s else s)
     ∧ repeatCurrentElementInfo_rev2 E s =
         emit (TtsSay "No element focused")
           (if decide (tts_state E = TtsSpeaking) then emit TtsStop s else s))
  ∧ (m_textToSpeech s = false →
       repeatCurrentElementInfo E s = s ∧ repeatCurrentElementInfo_rev2 E s = s).
Proof.
  intros Hf. split.
  - intros Ht. split.
    + unfold repeatCurrentElementInfo. rewrite Ht, Hf. cbn [negb isEmpty].
      destruct (focusObjectText E) as [[[name descr] value]|]; [|reflexivity].
      rewrite !nonEmpty_cons.
      destruct name as [|c1 n], descr as [|c2 d], value as [|c3 v]; reflexivity.
    + unfold repeatCurrentElementInfo_rev2. rewrite Ht, Hf. reflexivity.
  - intros Ht. unfold repeatCurrentElementInfo, repeatCurrentElementInfo_rev2.
    rewrite Ht. split; reflexivity.
Qed.

Lemma X11_repeat_without_focus_witness :
  m_lastFocused Example.s1 = None
  ∧ effects (repeatCurrentElementInfo Example.E0 Example.s1)
    = effects Example.s1 ++ [TtsSay "No element focused"].
Proof.
  split; [reflexivity|].
  rewrite (proj1 (proj1 (X11_repeat_without_focus Example.E0 Example.s1 eq_refl)
                    eq_refl)).
  vm_compute. reflexivity.
Defined.

(** ** The key filter *)

(** X12. The global key filter consumes an event exactly when it is a key
    press of the repeat hotkey without auto-repeat and without modifiers and
    the hotkey is enabled; every other event, and every event when no
    controller is attached, is passed on with the state untouched.  The later
    revision of the controller never consumes an event. *)
Theorem X12_key_filter_consumes (E : Env) (s : Controller)
  (event : option QKeyEvent) :
  ((AccessibilityKeyFilter.eventFilter E (Some s) event).1 = true
   ↔ ∃ ke, event = Some ke
           ∧ m_repeatHotkeyEnabled s = true
           ∧ type ke = KeyPress
           ∧ isAutoRepeat ke = false
           ∧ key ke = m_repeatHotkey s
           ∧ modifiers ke = NoModifier)
  ∧ ((AccessibilityKeyFilter.eventFilter E (Some s) event).1 = false →
     AccessibilityKeyFilter.eventFilter E (Some s) event = (false, Some s))
  ∧ AccessibilityKeyFilter.eventFilter E (Some s) event
    = ((eventFilter E event s).1, Some (eventFilter E event s).2)
  ∧ AccessibilityKeyFilter.eventFilter E None event = (false, None)
  ∧ (eventFilter_rev2 E event s).1 = false.
Proof.
  assert (Hraw : (eventFilter E event s).1 = true
                 ↔ ∃ ke, event = Some ke
                         ∧ m_repeatHotkeyEnabled s = true
                         ∧ type ke = KeyPress
                         ∧ isAutoRepeat ke = false
                         ∧ key ke = m_repeatHotkey s
                         ∧ modifiers ke = NoModifier).
  { unfold eventFilter. destruct event as [ke|].
    - destruct (m_repeatHotkeyEnabled s); cbn [negb].
      + destruct (decide (type ke = KeyPress)) as [Hty|Hty].
        * destruct (isAutoRepeat ke) eqn:Har; cbn [negb andb].
          { split; [discriminate|]. intros (k & Hk & _ & _ & H & _).
            inversion Hk; subst. congruence. }
          destruct (Z.eqb_spec (key ke) (m_repeatHotkey s)) as [Hkey|Hkey];
            cbn [andb].
          { destruct (Z.eqb_spec (modifiers ke) NoModifier) as [Hm|Hm].
            - split; [|reflexivity]. intros _. exists ke. auto 10.
            - split; [discriminate|]. intros (k & Hk & _ & _ & _ & _ & H).
              inversion Hk; subst. contradiction. }
          split; [discriminate|]. intros (k & Hk & _ & _ & _ & H & _).
          inversion Hk; subst. contradiction.
        * split; [discriminate|]. intros (k & Hk & _ & H & _).
          inversion Hk; subst. contradiction.
      + split; [discriminate|]. intros (k & _ & H & _). discriminate.
    - split; [discriminate|]. intros (k & H & _). discriminate. }
  assert (Hquiet : (eventFilter E event s).1 = false → (eventFilter E event s).2 = s).
  { unfold eventFilter. destruct event as [ke|]; [|reflexivity].
    destruct (negb _); [reflexivity|]. destruct (decide _); [|reflexivity].
    destruct (_ && _); [discriminate|reflexivity]. }
  assert (Hwrap : AccessibilityKeyFilter.eventFilter E (Some s) event
                  = ((eventFilter E event s).1, Some (eventFilter E event s).2)).
  { unfold AccessibilityKeyFilter.eventFilter.
    destruct (eventFilter E event s) as [[|] s']; reflexivity. }
  split; [rewrite Hwrap; exact Hraw|].
  split.
  { rewrite Hwrap. simpl. intros H. rewrite H, (Hquiet H). reflexivity. }
  split; [exact Hwrap|]. split; [reflexivity|].
  unfold eventFilter_rev2. destruct event as [ke|]; [|reflexivity].
  destruct (negb _); [reflexivity|]. destruct (decide _); [|reflexivity].
  destruct (_ && _); reflexivity.
Qed.

Lemma X12_key_filter_consumes_witness :
  (AccessibilityKeyFilter.eventFilter Example.E0 (Some Example.s1)
     (Some Example.hotkeyAutoRepeat)).1 = false
  ∧ AccessibilityKeyFilter.eventFilter Example.E0 (Some Example.s1)
      (Some Example.hotkeyAutoRepeat) = (false, Some Example.s1).
Proof.
  assert (H : (AccessibilityKeyFilter.eventFilter Example.E0 (Some Example.s1)
                 (Some Example.hotkeyAutoRepeat)).1 = false) by reflexivity.
  split; [exact H|].
  exact (proj1 (proj2 (X12_key_filter_consumes Example.E0 Example.s1
                         (Some Example.hotkeyAutoRepeat))) H).
Defined.

(** * Tree utilities *)

Section TreeUtilities.

Context (E : Env).

Lemma firstIndex_spec (hit : Z → bool) (n : nat) (m : Z) :
  0 <= m →
  let r := Navigation.firstIndex hit (seqZ m (Z.of_nat n)) in
  (r = -1 ∧ ∀ j, m <= j < m + Z.of_nat n → hit j = false)
  ∨ (m <= r < m + Z.of_nat n ∧ hit r = true ∧ ∀ j, m <= j < r → hit j = false).
Proof.
  revert m. induction n as [|n IH]; intros m Hm.
  - left. split; [reflexivity|]. intros j Hj. lia.
  - cbv zeta. rewrite seqZ_cons by lia. simpl Navigation.firstIndex.
    destruct (hit m) eqn:Hh.
    + right. split; [lia|]. split; [exact Hh|]. intros j Hj. lia.
    + replace (Z.pred (Z.of_nat (S n))) with (Z.of_nat n) by lia.
      destruct (IH (Z.succ m) ltac:(lia)) as [[Hr Hall]|(Hr & Hhit & Hall)].
      * left. split; [exact Hr|]. intros j Hj.
        destruct (decide (j = m)) as [->|Hne]; [exact Hh|]. apply Hall. lia.
      * right. split; [lia|]. split; [exact Hhit|]. intros j Hj.
        destruct (decide (j = m)) as [->|Hne]; [exact Hh|]. apply Hall. lia.
Qed.

Lemma child_hit (s : Controller) (p : IAccessiblePtr)
  (ifc : QAccessibleInterfacePtr) (j : Z) :
  Navigation.child E s (Some p) j = Some ifc
  ↔ match IAccessible.accessibleChild (deref E s p) (Navigation.static_cast_size_t j) with
    | None => false
    | Some ch => bool_decide (iface (findItem s (Some ch)) = Some ifc)
    end = true.
Proof.
  unfold Navigation.child.
  destruct (IAccessible.accessibleChild _ _) as [ch|].
  - rewrite bool_decide_eq_true. reflexivity.
  - split; discriminate.
Qed.

Lemma indexOfChild_first (s : Controller) (p : IAccessiblePtr)
  (ifc : QAccessibleInterfacePtr) :
  let count := Navigation.childCount E s (Some p) in
  let r := Navigation.indexOfChild E s (Some p) (Some ifc) in
  (r = -1 ∧ ∀ j, 0 <= j < count → Navigation.child E s (Some p) j ≠ Some ifc)
  ∨ (0 <= r < count
     ∧ Navigation.child E s (Some p) r = Some ifc
     ∧ ∀ j, 0 <= j < r → Navigation.child E s (Some p) j ≠ Some ifc).
Proof.
  intros count r.
  unfold r, Navigation.indexOfChild. unfold count, Navigation.childCount.
  set (c := static_cast_int (IAccessible.accessibleChildCount (deref E s p))).
  set (hit := λ i : Z,
         match IAccessible.accessibleChild (deref E s p)
                 (Navigation.static_cast_size_t i) with
         | None => false
         | Some ch => bool_decide (iface (findItem s (Some ch)) = Some ifc)
         end).
  assert (Hnot : ∀ j, hit j = false → Navigation.child E s (Some p) j ≠ Some ifc).
  { intros j Hj Hc. apply child_hit in Hc. fold (hit j) in Hc. congruence. }
  destruct (Z.le_gt_cases c 0) as [Hc|Hc].
  - rewrite seqZ_nil by exact Hc. left. split; [reflexivity|]. intros j Hj. lia.
  - pose proof (firstIndex_spec hit (Z.to_nat c) 0 ltac:(lia)) as H.
    rewrite Z2Nat.id in H by lia. cbv zeta in H.
    destruct H as [[Hr Hall]|(Hr & Hhit & Hall)].
    + left. split; [exact Hr|]. intros j Hj. apply Hnot, Hall. lia.
    + right. split; [lia|]. split.
      * apply child_hit. exact Hhit.
      * intros j Hj. apply Hnot, Hall. lia.
Qed.

(** X14. [indexOfChild] returns the first index, in child order, whose
    child resolves to the given handle, and -1 when no child below the
    child count does; with a null item or a null handle it returns -1. *)
Theorem X14_indexOfChild_first_match (s : Controller) (p : IAccessiblePtr)
  (ifc : QAccessibleInterfacePtr) :
  let count := Navigation.childCount E s (Some p) in
  let r := Navigation.indexOfChild E s (Some p) (Some ifc) in
  ((r = -1 ∧ ∀ j, 0 <= j < count → Navigation.child E s (Some p) j ≠ Some ifc)
   ∨ (0 <= r < count
      ∧ Navigation.child E s (Some p) r = Some ifc
      ∧ ∀ j, 0 <= j < r → Navigation.child E s (Some p) j ≠ Some ifc))
  ∧ Navigation.indexOfChild E s None (Some ifc) = -1
  ∧ Navigation.indexOfChild E s (Some p) None = -1.
Proof.
  intros count r. split; [apply indexOfChild_first|split; reflexivity].
Qed.

(** The root resolves index [n] to the handle of its [n]-th top-level
    child. *)
Lemma child_of_root (s : Controller) (n : nat) :
  Z.of_nat n < 2 ^ 31 →
  Navigation.child E s (Some This) (Z.of_nat n) =
  match m_children s !! n with
  | Some ch => iface (findItem s (Some ch))
  | None => None
  end.
Proof.
  intros Hn. unfold Navigation.child, Navigation.static_cast_size_t.
  rewrite Z.mod_small by lia.
  cbn [deref asIAccessible IAccessible.accessibleChild].
  rewrite accessibleChild_in_range by exact Hn. reflexivity.
Qed.

(** X15. Round trip on the root: in a reachable state, when the platform
    never resolves two wrappers to the same handle, [indexOfChild] finds
    each top-level child at its own index, that is
    [indexOfChild(root, child(root, n)) = n] for every child with a handle. *)
Theorem X15_indexOfChild_child_round_trip (s : Controller) (n : nat)
  (ifc : QAccessibleInterfacePtr) :
  reachable E s →
  (∀ o1 o2 i, queryAccessibleInterface E o1 = Some i →
              queryAccessibleInterface E o2 = Some i → o1 = o2) →
  Z.of_nat (length (m_children s)) < 2 ^ 31 →
  (n < length (m_children s))%nat →
  Navigation.child E s (Some This) (Z.of_nat n) = Some ifc →
  Navigation.indexOfChild E s (Some This) (Some ifc) = Z.of_nat n.
Proof.
  intros Hr Hinj Hlen Hn Hchild.
  destruct (reachable_wrappers E s Hr) as [Hwrap Huniq].
  destruct (reachable_children E s Hr) as [Hnd Hmem].
  destruct (reachable_wf E s Hr) as [Hk _].
  assert (Hcount : Navigation.childCount E s (Some This)
                   = Z.of_nat (length (m_children s))).
  { unfold Navigation.childCount.
    cbn [deref asIAccessible IAccessible.accessibleChildCount].
    unfold accessibleChildCount. apply static_cast_int_small. lia. }
  (* the entry behind a resolved child *)
  assert (Hentry : ∀ k : nat, (k < length (m_children s))%nat →
            Navigation.child E s (Some This) (Z.of_nat k) = Some ifc →
            ∃ ch o, m_children s !! k = Some ch
                    ∧ (∃ it, m_allItems s !! ch = Some it ∧ object it = Some o)
                    ∧ queryAccessibleInterface E o = Some ifc).
  { intros k Hklt Hc. rewrite child_of_root in Hc by lia.
    destruct (m_children s !! k) as [ch|] eqn:Hch; [|discriminate].
    destruct (proj1 (Hmem ch (list_elem_of_lookup_2 _ _ _ Hch))) as [it Hit].
    simpl in Hc. rewrite Hit in Hc.
    destruct (Hk _ _ Hit) as [_ Ho].
    destruct (object it) as [o|] eqn:Hobj; [|discriminate].
    destruct (Hwrap _ _ _ Hit Hobj) as [_ Hi].
    exists ch, o. split; [reflexivity|]. split; [eauto|]. congruence. }
  destruct (indexOfChild_first s This ifc) as [[_ Hall]|(Hrange & Hrc & Hfirst)].
  { exfalso. apply (Hall (Z.of_nat n)); [rewrite Hcount; lia|exact Hchild]. }
  rewrite Hcount in Hrange.
  set (r := Navigation.indexOfChild E s (Some This) (Some ifc)) in *.
  assert (Hr' : r = Z.of_nat (Z.to_nat r)) by lia.
  rewrite Hr' in Hrc.
  destruct (Hentry (Z.to_nat r) ltac:(lia) Hrc)
    as (ch1 & o1 & Hch1 & (it1 & Hit1 & Hob1) & Hq1).
  destruct (Hentry n Hn Hchild) as (ch2 & o2 & Hch2 & (it2 & Hit2 & Hob2) & Hq2).
  assert (o1 = o2) by (eapply Hinj; eauto). subst o2.
  assert (ch1 = ch2) by (eapply Huniq; eauto). subst ch2.
  pose proof (NoDup_lookup _ _ _ _ Hnd Hch1 Hch2) as Heq. lia.
Qed.

(** X16. [focusedChild] returns the handle of the first child, in child
    order, that reports the Focused state (children the item answers with
    null are skipped), and null when no child below the child count is
    focused.  The handle is the one stored for that child, so it is null when
    the first focused child has no entry, whatever the later children
    report. *)
Theorem X16_focusedChild_first_focused (s : Controller) (p : IAccessiblePtr) :
  let count := Navigation.childCount E s (Some p) in
  let focusedAt := λ i : Z,
    match IAccessible.accessibleChild (deref E s p)
            (Navigation.static_cast_size_t i) with
    | Some ch => IAccessible.accessibleState (deref E s ch) IAccessible.Focused
    | None => false
    end in
  let r := Navigation.firstIndex focusedAt (seqZ 0 count) in
  Navigation.focusedChild E s (Some p) =
    (if decide (r = -1) then None else Navigation.child E s (Some p) r)
  ∧ ((r = -1 ∧ ∀ j, 0 <= j < count → focusedAt j = false)
     ∨ (0 <= r < count ∧ focusedAt r = true ∧ ∀ j, 0 <= j < r → focusedAt j = false))
  ∧ Navigation.focusedChild E s None = None.
Proof.
  intros count focusedAt r. split; [|split; [|reflexivity]].
  - unfold Navigation.focusedChild, r, count, Navigation.childCount.
    set (c := static_cast_int (IAccessible.accessibleChildCount (deref E s p))).
    assert (Hgen : ∀ (n : nat) (m : Z), 0 <= m →
              Navigation.focusedChild_loop E s p (seqZ m (Z.of_nat n)) =
              (if decide (Navigation.firstIndex focusedAt (seqZ m (Z.of_nat n)) = -1)
               then None
               else Navigation.child E s (Some p)
                      (Navigation.firstIndex focusedAt (seqZ m (Z.of_nat n))))).
    { induction n as [|n IH]; intros m Hm; [reflexivity|].
      rewrite seqZ_cons by lia.
      replace (Z.pred (Z.of_nat (S n))) with (Z.of_nat n) by lia.
      cbn [Navigation.focusedChild_loop Navigation.firstIndex].
      destruct (focusedAt m) eqn:Hf; unfold focusedAt in Hf;
        destruct (IAccessible.accessibleChild (deref E s p)
                    (Navigation.static_cast_size_t m)) as [ch|] eqn:Hch;
        try discriminate; try rewrite Hf; try (apply IH; lia).
      destruct (decide (m = -1)); [lia|].
      unfold Navigation.child. rewrite Hch. reflexivity. }
    destruct (Z.le_gt_cases c 0) as [Hc|Hc].
    + rewrite seqZ_nil by exact Hc. reflexivity.
    + rewrite <- (Z2Nat.id c) by lia. apply Hgen. lia.
  - unfold r, count, Navigation.childCount.
    set (c := static_cast_int (IAccessible.accessibleChildCount (deref E s p))).
    destruct (Z.le_gt_cases c 0) as [Hc|Hc].
    + rewrite seqZ_nil by exact Hc. left. split; [reflexivity|]. intros j Hj. lia.
    + pose proof (firstIndex_spec focusedAt (Z.to_nat c) 0 ltac:(lia)) as H.
      rewrite Z2Nat.id in H by lia. cbv zeta in H.
      destruct H as [[Hr Hall]|(Hr & Hhit & Hall)].
      * left. split; [exact Hr|]. intros j Hj. apply Hall. lia.
      * right. split; [lia|]. split; [exact Hhit|]. intros j Hj. apply Hall. lia.
Qed.

(** *** The enclosing panel *)




End TreeUtilities.

Lemma X15_indexOfChild_child_round_trip_witness :
  reachable Example.E0 Example.s1
  ∧ Navigation.child Example.E0 Example.s1 (Some This) (Z.of_nat 0) = Some 1%nat
  ∧ Navigation.indexOfChild Example.E0 Example.s1 (Some This) (Some 1%nat)
    = Z.of_nat 0.
Proof.
  assert (Hr : reachable Example.E0 Example.s1)
    by apply reach_reg, reach_constructed.
  assert (Hc : Navigation.child Example.E0 Example.s1 (Some This) (Z.of_nat 0)
               = Some 1%nat) by (vm_compute; reflexivity).
  split; [exact Hr|]. split; [exact Hc|].
  apply (X15_indexOfChild_child_round_trip Example.E0 Example.s1 0 1%nat Hr).
  - intros o1 o2 i H1 H2. simpl in H1, H2. congruence.
  - vm_compute. reflexivity.
  - vm_compute. lia.
  - exact Hc.
Defined.


(** * The platform wrapper *)

(** X18. The platform state [state()] computes is always coherent: it is
    never invalid, invisible exactly when disabled, disabled exactly when
    the item is not enabled, and a focused, checked or selected flag is only
    ever set together with focusable, checkable or selectable. *)
Theorem X18_state_is_coherent (item : IAccessible.t) :
  let st := AccessibleItemInterface.state item in
  AccessibleItemInterface.invalid st = false
  ∧ AccessibleItemInterface.invisible st = AccessibleItemInterface.disabled st
  ∧ AccessibleItemInterface.disabled st
    = negb (IAccessible.accessibleState item IAccessible.Enabled)
  ∧ (AccessibleItemInterface.focused st = true →
     AccessibleItemInterface.focusable st = true)
  ∧ (AccessibleItemInterface.checked st = true →
     AccessibleItemInterface.checkable st = true)
  ∧ (AccessibleItemInterface.selected st = true →
     AccessibleItemInterface.selectable st = true).
Proof.
  unfold AccessibleItemInterface.state.
  destruct (IAccessible.accessibleState item IAccessible.Enabled); cbn;
    [|repeat split; discriminate].
  destruct (IAccessible.accessibleRole item); cbn; repeat split; auto; discriminate.
Qed.



(** X20. Which interfaces the wrapper exposes: the value interface exactly
    for a Range item asked for the value interface; the text interface for
    every item asked for the text interface; the table-cell interface
    exactly when asked for the table-cell interface (on Windows also the
    action interface) and the item is a ListItem or, off macOS, has the
    SilentRole; nothing in every other case. *)
Theorem X20_interface_cast (pf : Platform) (item : IAccessible.t)
  (type : QAccessible.InterfaceType) :
  (ItemInterface.interface_cast pf item type = Some ItemInterface.AsValueInterface
   ↔ type = QAccessible.ValueInterface
     ∧ IAccessible.accessibleRole item = IAccessible.Range)
  ∧ (ItemInterface.interface_cast pf item type = Some ItemInterface.AsTextInterface
     ↔ type = QAccessible.TextInterface)
  ∧ (ItemInterface.interface_cast pf item type = Some ItemInterface.AsTableCellInterface
     ↔ (type = QAccessible.TableCellInterface
        ∨ (pf = Windows ∧ type = QAccessible.ActionInterface))
       ∧ (IAccessible.accessibleRole item = IAccessible.ListItem
          ∨ (IAccessible.accessibleRole item = IAccessible.SilentRole ∧ pf ≠ MacOS))).
Proof.
  assert (Hslider : ItemInterface.role pf item = QAccessible.Slider
                    ↔ IAccessible.accessibleRole item = IAccessible.Range).
  { unfold ItemInterface.role.
    destruct (IAccessible.accessibleRole item); repeat (destruct (decide _));
      split; congruence. }
  assert (Hlist : ItemInterface.role pf item = QAccessible.ListItem
                  ↔ IAccessible.accessibleRole item = IAccessible.ListItem
                    ∨ (IAccessible.accessibleRole item = IAccessible.SilentRole
                       ∧ pf ≠ MacOS)).
  { unfold ItemInterface.role.
    destruct (IAccessible.accessibleRole item); repeat (destruct (decide _));
      split; try congruence; try (intros [Hx|[Hx Hx']]; congruence);
      intros _; auto. }
  unfold ItemInterface.interface_cast. cbv zeta.
  rewrite <- Hslider, <- Hlist. clear Hslider Hlist.
  generalize (ItemInterface.role pf item). intros R.
  destruct type, pf; cbn; repeat case_bool_decide;
    repeat (destruct (decide _)); cbn; intuition congruence.
Qed.

Section WrapperText.

Context (pf : Platform)
        (containsCaseInsensitive : string → string → bool)
        (panelLabel : string → string)
        (p : IAccessiblePtr) (item : IAccessible.t)
        (controller : option ItemInterface.ControllerView).

Local Abbreviation text :=
  (ItemInterface.text pf containsCaseInsensitive panelLabel p item controller).
Local Abbreviation announcement := (ItemInterface.announcement p controller).

(** X21. The texts the wrapper reports.  While an announcement is pending
    for the wrapped item, the name text is the announcement and no
    description is reported.  Without one, and without panel voicing, an item
    with an empty description reports exactly its name on every platform,
    with no separator appended.  Value, help and every other text type are
    always empty, and macOS reports no description at all. *)
Theorem X21_wrapper_text :
  (isEmpty announcement = false →
     text QAccessible.Name = announcement
     ∧ text QAccessible.Description = EmptyString
     ∧ text QAccessible.Accelerator = EmptyString)
  ∧ (isEmpty announcement = true →
     IAccessible.accessibleDescription item = EmptyString →
     (∀ c, controller = Some c →
           Some p = ItemInterface.cv_lastFocused c →
           ItemInterface.cv_needToVoicePanelInfo c = false) →
     text QAccessible.Name = IAccessible.accessibleName item)
  ∧ text QAccessible.Value = EmptyString
  ∧ text QAccessible.Help = EmptyString
  ∧ text QAccessible.DebugDescription = EmptyString
  ∧ text QAccessible.UserText = EmptyString
  ∧ (pf = MacOS →
     text QAccessible.Description = EmptyString
     ∧ text QAccessible.Accelerator = EmptyString).
Proof.
  split; [|split; [|repeat split; try reflexivity]].
  - intros Ha. unfold ItemInterface.text, ItemInterface.text_Name,
      ItemInterface.text_Description. rewrite Ha. cbn [negb].
    repeat split; destruct (decide _); reflexivity.
  - intros Ha Hd Hv. unfold ItemInterface.text, ItemInterface.text_Name,
      ItemInterface.description. rewrite Ha, Hd. cbn [negb isEmpty orb].
    replace (if decide (pf = MacOS) then IAccessible.accessibleName item
             else IAccessible.accessibleName item)
      with (IAccessible.accessibleName item) by (destruct (decide _); reflexivity).
    destruct controller as [c|]; [|reflexivity].
    destruct (bool_decide (Some p = ItemInterface.cv_lastFocused c)) eqn:Hb;
      [|reflexivity].
    apply bool_decide_eq_true in Hb. rewrite (Hv c eq_refl Hb). reflexivity.
  - subst pf. reflexivity.
  - subst pf. reflexivity.
Qed.

End WrapperText.

Lemma X21_wrapper_text_witness :
  ItemInterface.text MacOS (λ _ _, false) (λ n, (n +:+ " panel")%string)
    (Obj 4) (Example.plainItem None IAccessible.ElementOnScore "Measure 3" true)
    (Some {| ItemInterface.cv_lastFocused := Some (Obj 4);
             ItemInterface.cv_announcement := EmptyString;
             ItemInterface.cv_needToVoicePanelInfo := false;
             ItemInterface.cv_currentPanelAccessibleName := EmptyString |})
    QAccessible.Name
  = "Measure 3"%string.
Proof.
  apply (proj1 (proj2 (X21_wrapper_text MacOS (λ _ _, false)
                         (λ n, (n +:+ " panel")%string) (Obj 4)
                         (Example.plainItem None IAccessible.ElementOnScore
                            "Measure 3" true) _))).
  - reflexivity.
  - reflexivity.
  - intros c Hc _. inversion Hc. reflexivity.
Defined.

(** * The repeater and the score element *)

(** X22. [repeatCurrentElement] always has something to say: it hands the
    description of the last focused item to [speak], which stops a speaking
    engine first and then says the text once, and which does nothing at all
    when the engine is missing or in its error state. *)
Theorem X22_repeater_speaks (E : Env) (s : Controller) (m_speech : bool)
  (st : TtsState) :
  RepeaterSpeech.repeatCurrentElement E s m_speech st =
    (if m_speech && negb (bool_decide (st = TtsError))
     then (if decide (st = TtsSpeaking) then [TtsStop] else [])
          ++ [TtsSay (AccessibilityRepeater.getCurrentElementInfo E s)]
     else [])
  ∧ isEmpty (AccessibilityRepeater.getCurrentElementInfo E s) = false.
Proof.
  assert (Hne : isEmpty (AccessibilityRepeater.getCurrentElementInfo E s) = false).
  { rewrite getCurrentElementInfo_build. apply buildSpokenDescriptionFor_nonempty. }
  split; [|exact Hne].
  unfold RepeaterSpeech.repeatCurrentElement, RepeaterSpeech.speak.
  rewrite Hne. cbn [negb].
  destruct m_speech; cbn [negb andb]; [|reflexivity].
  destruct (decide (st = TtsError)) as [->|Hn].
  - rewrite bool_decide_eq_true_2 by reflexivity. reflexivity.
  - rewrite bool_decide_eq_false_2 by exact Hn. reflexivity.
Qed.

(** X23. [setState] on a score element tracks Focused and Selected only:
    the new value reads back through [accessibleState], a notification is
    sent exactly when the stored value changes, setting the same value again
    sends nothing, and every other state is ignored without a
    notification. *)
Theorem X23_score_element_setState (e : AccessibleScoreElement.ScoreElement)
  (st : IAccessible.State) (arg : bool) :
  let tracked := bool_decide (st = IAccessible.Focused ∨ st = IAccessible.Selected) in
  let r := ScoreElementState.setState st arg e in
  (tracked = true → AccessibleScoreElement.accessibleState r.1 st = arg)
  ∧ (tracked = false → r = (e, []))
  ∧ r.2 = (if tracked && negb (eqb (AccessibleScoreElement.accessibleState e st) arg)
           then [(st, arg)] else [])
  ∧ (ScoreElementState.setState st arg r.1).2 = []
  ∧ (∀ st', st' ≠ st →
       AccessibleScoreElement.accessibleState r.1 st'
       = AccessibleScoreElement.accessibleState e st').
Proof.
  destruct e as [el f sel].
  destruct st, arg, f, sel; cbn; repeat split; try discriminate; try reflexivity;
    intros st' Hne; destruct st'; try reflexivity; contradiction.
Qed.

(** X24. What is spoken for a score element: in the first revision of the
    header always "Score element", whether or not it points at an element of
    the score; in the later revision "Score element" with an element and
    "Unknown element" without one. *)
Theorem X24_score_element_spoken (e : AccessibleScoreElement.ScoreElement) :
  buildSpokenDescriptionFor (Some (AccessibleScoreElement.asIAccessible e))
  = "Score element"%string
  ∧ buildSpokenDescriptionFor (Some (ScoreElementState.asIAccessible_rev2 e))
    = (if nonnull (AccessibleScoreElement.m_elem e)
       then "Score element"%string else "Unknown element"%string).
Proof.
  destruct e as [[el|] f sel]; split; reflexivity.
Qed.

(** X25. What the platform is told about a score element: without an
    element it is disabled and invisible and ignored; with one it is
    focusable, focused exactly when its Focused state is set, and nothing
    else.  Its Selected state is never part of the platform state. *)
Theorem X25_score_element_platform_state (e : AccessibleScoreElement.ScoreElement) :
  let item := AccessibleScoreElement.asIAccessible e in
  AccessibleItemInterface.state item =
    (if nonnull (AccessibleScoreElement.m_elem e)
     then {| AccessibleItemInterface.disabled := false;
             AccessibleItemInterface.invisible := false;
             AccessibleItemInterface.invalid := false;
             AccessibleItemInterface.active := false;
             AccessibleItemInterface.focusable := true;
             AccessibleItemInterface.focused := AccessibleScoreElement.m_focused e;
             AccessibleItemInterface.checkable := false;
             AccessibleItemInterface.checked := false;
             AccessibleItemInterface.selectable := false;
             AccessibleItemInterface.selected := false |}
     else {| AccessibleItemInterface.disabled := true;
             AccessibleItemInterface.invisible := true;
             AccessibleItemInterface.invalid := false;
             AccessibleItemInterface.active := false;
             AccessibleItemInterface.focusable := false;
             AccessibleItemInterface.focused := false;
             AccessibleItemInterface.checkable := false;
             AccessibleItemInterface.checked := false;
             AccessibleItemInterface.selectable := false;
             AccessibleItemInterface.selected := false |})
  ∧ IAccessible.accessibleIgnored item
    = negb (IAccessible.accessibleState item IAccessible.Enabled)
  ∧ ItemInterface.isSelected item = AccessibleScoreElement.m_selected e.
Proof.
  destruct e as [[el|] f sel]; repeat split; reflexivity.
Qed.

(** * Event synthesis and the dispatch hooks of the later revision *)

(** X26. The event synthesised for a property-changed notification.  For an
    item without an entry, and for the Undefined property, nothing is sent and
    nothing changes.  For a registered item every other property sends
    exactly one event for the wrapper of that item: ParentChanged for Parent;
    NameChanged for Name; for Description NameChanged on macOS,
    AcceleratorChanged on Windows and DescriptionChanged elsewhere; a value,
    cursor, insert or remove event carrying what the item then reports.  The
    pending announcement is cleared exactly for a Name or Description change
    of the focused item, and nothing else of the controller changes. *)
Theorem X26_propertyChanged (pf : Platform) (E : Env) (a : IAccessiblePtr)
  (property : PropertyChanged.Property) (range : PropertyChanged.TextRange)
  (st : PropertyChanged.State) :
  let s := PropertyChanged.controller st in
  let r := PropertyChanged.propertyChanged pf E a property range st in
  (m_allItems s !! a = None ∨ property = PropertyChanged.Undefined → r = (st, []))
  ∧ (wf s → ∀ it, m_allItems s !! a = Some it →
     let o := object it in
     let item := deref E s a in
     r.2 =
       match property with
       | PropertyChanged.Undefined => []
       | PropertyChanged.Parent =>
           [PropertyChanged.PlainEvent o PropertyChanged.ParentChanged]
       | PropertyChanged.Name =>
           [PropertyChanged.PlainEvent o PropertyChanged.NameChanged]
       | PropertyChanged.Description =>
           [PropertyChanged.PlainEvent o
              match pf with
              | MacOS => PropertyChanged.NameChanged
              | Windows => PropertyChanged.AcceleratorChanged
              | OtherOS => PropertyChanged.DescriptionChanged
              end]
       | PropertyChanged.Value =>
           [PropertyChanged.ValueChangeEvent o (IAccessible.accessibleValue item)]
       | PropertyChanged.TextCursor =>
           [PropertyChanged.TextCursorEvent o
              (IAccessible.accessibleCursorPosition item)]
       | PropertyChanged.TextInsert =>
           [PropertyChanged.TextInsertEvent o (PropertyChanged.startPosition range)
              (IAccessible.accessibleText item
                 (PropertyChanged.startPosition range)
                 (PropertyChanged.endPosition range))]
       | PropertyChanged.TextRemove =>
           [PropertyChanged.TextRemoveEvent o (PropertyChanged.startPosition range)
              (IAccessible.accessibleText item
                 (PropertyChanged.startPosition range)
                 (PropertyChanged.endPosition range))]
       end
     ∧ PropertyChanged.controller r.1 =
         (if bool_decide (property = PropertyChanged.Name
                          ∨ property = PropertyChanged.Description)
             && bool_decide (Some a = m_lastFocused s)
          then set_m_announcement EmptyString s else s)).
Proof.
  intros s r. split.
  - intros [Hn|Hu]; unfold r, PropertyChanged.propertyChanged; fold s.
    + simpl. rewrite Hn. reflexivity.
    + rewrite Hu. destruct (negb _); reflexivity.
  - intros [Hk _] it Hl o item.
    destruct (Hk _ _ Hl) as [Hi Ho].
    unfold r, PropertyChanged.propertyChanged. fold s.
    cbn [findItem]. rewrite Hl, (isValid_entry a it Hi Ho), Hi. cbn [negb].
    unfold PropertyChanged.needsRevoicing.
    destruct property; cbn; try (split; reflexivity).
    + destruct (iface it), pf, (decide (Some a = m_lastFocused s)) as [Hf|Hf];
        cbn; rewrite ?(bool_decide_eq_true_2 _ Hf), ?(bool_decide_eq_false_2 _ Hf);
        split; reflexivity.
    + destruct (iface it), pf, (decide (Some a = m_lastFocused s)) as [Hf|Hf];
        cbn; rewrite ?(bool_decide_eq_true_2 _ Hf), ?(bool_decide_eq_false_2 _ Hf);
        split; reflexivity.
Qed.

Lemma X26_propertyChanged_witness :
  (PropertyChanged.propertyChanged OtherOS Example.E0 (Obj 1)
     PropertyChanged.Description
     {| PropertyChanged.startPosition := 0; PropertyChanged.endPosition := 0 |}
     {| PropertyChanged.controller := Example.s1_focused;
        PropertyChanged.m_needToVoicePanelInfo := true |}).2
  = [PropertyChanged.PlainEvent (Some 1%nat) PropertyChanged.DescriptionChanged].
Proof.
  assert (Hwf : wf Example.s1_focused).
  { exact (wf_set_focus (Some (Obj 1)) (Some (Obj 1)) Example.s1
             (wf_reg Example.E0 (Obj 1) Example.s0 (wf_constructed Key_F12))). }
  assert (Hl : m_allItems Example.s1_focused !! Obj 1
               = Some {| item := Some (Obj 1); object := Some 1%nat;
                         iface := Some 1%nat |})
    by (vm_compute; reflexivity).
  exact (proj1 (proj2 (X26_propertyChanged OtherOS Example.E0 (Obj 1)
                         PropertyChanged.Description
                         {| PropertyChanged.startPosition := 0;
                            PropertyChanged.endPosition := 0 |}
                         {| PropertyChanged.controller := Example.s1_focused;
                            PropertyChanged.m_needToVoicePanelInfo := true |})
                  Hwf _ Hl)).
Defined.



(** * The selection's accessibility bridge *)

(** X28. [onElementHit] with the first revision of the controller.  Without
    a resolved controller it only records the element hit.  Otherwise the
    shared score element ends up pointing at the element hit, focused and
    selected; it is created and registered on the first hit only and reused,
    at the same address and without a new registration, on every later hit;
    the pending announcement ends up empty.  None of it moves the controller's
    focus, and a later hit makes no outgoing call at all. *)
Theorem X28_onElementHit (E : Env) (fresh : nat) (el : option nat)
  (st : NotationSelection.State) :
  let r := NotationSelection.onElementHit E fresh el st in
  NotationSelection.m_lastElementHit r = el
  ∧ (NotationSelection.accCtrl st = None →
     NotationSelection.s_accScoreElem r = NotationSelection.s_accScoreElem st
     ∧ NotationSelection.accCtrl r = None
     ∧ NotationSelection.stateChanged r = NotationSelection.stateChanged st)
  ∧ (∀ c, NotationSelection.accCtrl st = Some c →
     (∃ addr e,
        NotationSelection.s_accScoreElem r = Some (addr, e)
        ∧ AccessibleScoreElement.m_elem e = el
        ∧ AccessibleScoreElement.m_focused e = true
        ∧ AccessibleScoreElement.m_selected e = true
        ∧ addr = match NotationSelection.s_accScoreElem st with
                 | Some (addr0, _) => addr0
                 | None => fresh
                 end)
     ∧ (∃ c', NotationSelection.accCtrl r = Some c'
              ∧ m_announcement c' = EmptyString
              ∧ m_lastFocused c' = m_lastFocused c
              ∧ c' = set_m_announcement EmptyString
                       match NotationSelection.s_accScoreElem st with
                       | Some _ => c
                       | None => reg E (Obj fresh) c
                       end))
  ∧ (∀ fresh' el',
       NotationSelection.accCtrl st ≠ None →
       let r' := NotationSelection.onElementHit E fresh' el' r in
       NotationSelection.accCtrl r' = NotationSelection.accCtrl r
       ∧ NotationSelection.stateChanged r' = NotationSelection.stateChanged r
       ∧ fst <$> NotationSelection.s_accScoreElem r'
         = fst <$> NotationSelection.s_accScoreElem r).
Proof.
  intros r. unfold r, NotationSelection.onElementHit.
  assert (Hann : ∀ c, announce EmptyString c = set_m_announcement EmptyString c).
  { intros c. unfold announce. cbn [isEmpty]. rewrite orb_true_r. reflexivity. }
  assert (Hidem : ∀ c, set_m_announcement EmptyString
                         (set_m_announcement EmptyString c)
                       = set_m_announcement EmptyString c) by reflexivity.
  destruct st as [hit elem ctrl sc]. cbn.
  destruct ctrl as [c|].
  - destruct elem as [[addr0 [e0 f0 sel0]]|].
    + split; [destruct f0, sel0; reflexivity|].
      split; [discriminate|]. split.
      * intros c0 Hc. inversion Hc; subst c0. rewrite Hann.
        split.
        -- exists addr0. destruct f0, sel0; cbn; eexists; repeat split; reflexivity.
        -- exists (set_m_announcement EmptyString c).
           destruct f0, sel0; cbn; repeat split; reflexivity.
      * intros fresh' el' _. rewrite !Hann.
        destruct f0, sel0; cbn; rewrite ?Hann, ?app_nil_r; repeat split; reflexivity.
    + split; [reflexivity|]. split; [discriminate|]. split.
      * intros c0 Hc. inversion Hc; subst c0. rewrite Hann.
        split.
        -- exists fresh. cbn. eexists. repeat split; reflexivity.
        -- exists (set_m_announcement EmptyString (reg E (Obj fresh) c)).
           cbn. repeat split.
           apply (reg_keeps_focus E (Obj fresh) c).
      * intros fresh' el' _. cbn. rewrite !Hann, app_nil_r.
        repeat split; reflexivity.
  - split; [reflexivity|]. split; [auto|]. split; [discriminate|].
    intros fresh' el' H. contradiction.
Qed.

(** * The root as the platform sees it *)

(** X29. The wrapper of the root reports, on every platform, the role
    Application and only the text interface.  Its state follows the
    accessibility switch: active and nothing else while accessibility is
    enabled, disabled and invisible and nothing else once
    [setAccessibilityEnabled(false)] was called. *)
Theorem X29_root_platform_view (pf : Platform) (E : Env) (s : Controller)
  (type : QAccessible.InterfaceType) (enabled : bool) :
  let root := deref E (setAccessibilityEnabled enabled s) This in
  ItemInterface.role pf root = QAccessible.Application
  ∧ ItemInterface.interface_cast pf root type =
      (if decide (type = QAccessible.TextInterface)
       then Some ItemInterface.AsTextInterface else None)
  ∧ AccessibleItemInterface.state root =
      {| AccessibleItemInterface.disabled := negb enabled;
         AccessibleItemInterface.invisible := negb enabled;
         AccessibleItemInterface.invalid := false;
         AccessibleItemInterface.active := enabled;
         AccessibleItemInterface.focusable := false;
         AccessibleItemInterface.focused := false;
         AccessibleItemInterface.checkable := false;
         AccessibleItemInterface.checked := false;
         AccessibleItemInterface.selectable := false;
         AccessibleItemInterface.selected := false |}.
Proof.
  split; [reflexivity|]. split.
  - destruct type, pf; reflexivity.
  - destruct enabled; reflexivity.
Qed.
